(** * Disco-music-bot: the per-guild queue engine and the command dispatcher

    A shallow embedding of [QueueHandler] (the queue store of
    [src/handlers/QueueHandler.ts]) and of [CommandHandler.handleMessage]
    (the dispatcher of [src/handlers/CommandHandler.ts]), with the
    properties of the queue operations proved over it.

    Modelling choices, all taken from the source:
    - a JavaScript array is a mutable object: the [Map] of the handler holds
      references, so the model has a heap of arrays and the map sends a
      guild id to an address.  [queue.shift()], [push] and [splice] update
      the array in place; [this.queues.set(id, [...])] binds a new array;
    - [this.emit('queueUpdate', guild)], the calls to the playback
      collaborator and [console.error] are recorded, in order, in a trace;
    - the collaborators that are not part of the handler ([metaHandler],
      [guild.members.fetch], [playbackHandler]) are taken as parameters
      (record [Collaborators]); [Song], the guild member object and the
      download promise are opaque types;
    - [Math.floor(Math.random() * (i + 1))] is represented by its integer
      result: the draws of one call of [shuffleQueue] are a function from
      the loop index [i] to the index [j] drawn at that iteration;
    - one call runs without interleaving of other calls, and the
      subscribers of [queueUpdate], which are not part of the handler, do
      not call back into it while the event is emitted. *)

From Stdlib Require Import Ascii.
From stdpp Require Import gmap strings list fin_maps.

Open Scope string_scope.
Open Scope list_scope.

(** ** Data model *)

Record Guild := { guild_id : string }.

Record User := { user_id : string; user_username : string }.

(** The [requestedBy] object literal of a queued song. *)
Record Requester := { requester_id : string; requester_username : string }.

(** A settled promise: the value it resolved to, or the reason of the
    rejection. *)
Inductive Settled (A : Type) : Type :=
| Fulfilled (a : A)
| Rejected (reason : string).
Arguments Fulfilled {A} a.
Arguments Rejected {A} reason.

(** How a call ends: with a value, or with a thrown [Error] (its message). *)
Inductive Completion (A : Type) : Type :=
| Return (a : A)
| Throw (message : string).
Arguments Return {A} a.
Arguments Throw {A} message.

Section QueueHandler.
Context {Song Member Download : Type}.

Record QueuedSong := { song : Song; requestedBy : Requester }.

(** The object [metaHandler.getSongMetadata] resolves to, which is also the
    shape of what [addLinkToQueue] returns. *)
Record MetaResult := { metadata : option Song; downloadPromise : Download }.

Record Collaborators := {
  getSongMetadata : string -> Settled MetaResult;
  members_fetch : Guild -> string -> Settled Member;
  startPlayback : Guild -> Member -> Settled unit
}.

Inductive Effect : Type :=
| Emit_queueUpdate (guild : Guild)
| Members_fetch (guild : Guild) (uid : string)
| StartPlayback (guild : Guild) (member : Member)
| Console_error (label reason : string).

(** The handler and what it runs in: [queues] is the private [Map] (guild
    id to the address of an array), [heap] holds the arrays, [trace] the
    effects performed so far, oldest first. *)
Record World := {
  queues : gmap string nat;
  heap : list (list QueuedSong);
  trace : list Effect
}.

(** [new QueueHandler()] *)
Definition initial : World := {| queues := ∅; heap := []; trace := [] |}.

Definition perform (e : Effect) (w : World) : World :=
  {| queues := queues w; heap := heap w; trace := trace w ++ [e] |}.

(** [this.emit('queueUpdate', guild)] *)
Definition emit_queueUpdate (guild : Guild) (w : World) : World :=
  perform (Emit_queueUpdate guild) w.

(** An array literal: a new array at a new address. *)
Definition alloc (a : list QueuedSong) (w : World) : nat * World :=
  (length (heap w),
   {| queues := queues w; heap := heap w ++ [a]; trace := trace w |}).

(** An in-place update of the array at address [l]. *)
Definition store (l : nat) (a : list QueuedSong) (w : World) : World :=
  {| queues := queues w; heap := <[l := a]> (heap w); trace := trace w |}.

(** [this.queues.set(id, ref)] *)
Definition queues_set (id : string) (l : nat) (w : World) : World :=
  {| queues := <[id := l]> (queues w); heap := heap w; trace := trace w |}.

(** [this.queues.set(id, [...])]: the guild is bound to a new array. *)
Definition rebind (id : string) (a : list QueuedSong) (w : World) : World :=
  queues_set id (length (heap w)) (snd (alloc a w)).

(** [const queue = this.queues.get(id)]: the address and the array found
    there; [None] stands for [undefined]. *)
Definition queues_get (id : string) (w : World) : option (nat * list QueuedSong) :=
  l ← queues w !! id; a ← heap w !! l; Some (l, a).

(** [ref.push(x)] *)
Definition array_push (l : nat) (x : QueuedSong) (w : World) : World :=
  match heap w !! l with
  | Some a => store l (a ++ [x]) w
  | None => w
  end.

(** The contents of a guild's queue; a guild without an entry in the map has
    the empty queue. *)
Definition queueOf (w : World) (id : string) : list QueuedSong :=
  match queues_get id w with
  | Some (_, a) => a
  | None => []
  end.

(** Every address in the map is allocated, and no two guilds share an
    array. *)
Definition wf (w : World) : Prop :=
  map_Forall (λ _ l, l < length (heap w)) (queues w)
  ∧ map_Forall (λ i l, map_Forall (λ j l', l = l' -> i = j) (queues w)) (queues w).

#[global] Instance wf_dec (w : World) : Decision (wf w).
Proof. unfold wf. apply _. Defined.

(** ** Array primitives *)

(** [Array.prototype.splice(start, deleteCount, ...items)] for integer
    arguments: the removed elements and the array afterwards. *)
Definition splice {A : Type} (a : list A) (start deleteCount : Z) (items : list A)
  : list A * list A :=
  let len := Z.of_nat (length a) in
  let actualStart :=
    if (start <? 0)%Z then Z.max (len + start) 0 else Z.min start len in
  let actualDeleteCount := Z.min (Z.max deleteCount 0) (len - actualStart) in
  let s := Z.to_nat actualStart in
  let d := Z.to_nat actualDeleteCount in
  (take d (drop s a), take s a ++ items ++ drop (s + d) a).

(** [[a[i], a[j]] = [a[j], a[i]]]: the right-hand side is read first, then
    [a[i]] and [a[j]] are assigned in that order.  Both indices are inside
    the array wherever the source performs the exchange; outside, the array
    is left as it is. *)
Definition swap {A : Type} (a : list A) (i j : nat) : list A :=
  match a !! i, a !! j with
  | Some x, Some y => <[j := x]> (<[i := y]> a)
  | _, _ => a
  end.

(** The loop [for (let i = n; i > 0; i--) { j = draw i; swap i j }]. *)
Fixpoint fisher_yates {A : Type} (draw : nat -> nat) (i : nat) (a : list A) : list A :=
  match i with
  | 0 => a
  | S i' => fisher_yates draw i' (swap a i (draw i))
  end.

(** ** The operations of [QueueHandler] *)

Definition clearQueue (guild : Guild) (w : World) : World :=
  let '(l, w1) := alloc [] w in
  emit_queueUpdate guild (queues_set (guild_id guild) l w1).

(** The [try { member = await guild.members.fetch(id); await
    playbackHandler.startPlayback(guild, member) } catch (error) {
    console.error(...) }] block. *)
Definition tryStartPlayback (env : Collaborators) (guild : Guild) (uid : string)
    (w : World) : World :=
  let w1 := perform (Members_fetch guild uid) w in
  match members_fetch env guild uid with
  | Rejected reason => perform (Console_error "Error starting playback:" reason) w1
  | Fulfilled member =>
      let w2 := perform (StartPlayback guild member) w1 in
      match startPlayback env guild member with
      | Rejected reason => perform (Console_error "Error starting playback:" reason) w2
      | Fulfilled _ => w2
      end
  end.

Definition addLinkToQueue (env : Collaborators) (guild : Guild) (link : string)
    (requester : User) (w : World) : Completion MetaResult * World :=
  match getSongMetadata env link with
  | Rejected reason => (Throw reason, w)
  | Fulfilled result =>
      match metadata result with
      | None => (Throw "Could not fetch song metadata", w)
      | Some md =>
          let id := guild_id guild in
          let w1 :=
            match queues w !! id with
            | Some _ => w
            | None => let '(l, w0) := alloc [] w in queues_set id l w0
            end in
          let queue := queues w1 !! id in
          let item :=
            {| song := md;
               requestedBy := {| requester_id := user_id requester;
                                 requester_username := user_username requester |} |} in
          let w2 :=
            match queues w1 !! id with
            | Some l => array_push l item w1
            | None => w1
            end in
          let w3 := emit_queueUpdate guild w2 in
          let startsPlayback :=
            match queue with
            | Some l =>
                match heap w3 !! l with
                | Some a => (length a <=? 1)%nat
                | None => false
                end
            | None => false
            end in
          let w4 :=
            if startsPlayback
            then tryStartPlayback env guild (user_id requester) w3
            else w3 in
          (Return {| metadata := Some md; downloadPromise := downloadPromise result |}, w4)
      end
  end.

Definition getCurrentQueueItem (guild : Guild) (w : World) : option QueuedSong :=
  match queues_get (guild_id guild) w with
  | None => None
  | Some (_, queue) =>
      if (length queue =? 0)%nat then None else queue !! 0
  end.

Definition getNextQueueItem (guild : Guild) (w : World) : option QueuedSong * World :=
  match queues_get (guild_id guild) w with
  | None => (None, w)
  | Some (l, queue) =>
      if (length queue =? 0)%nat then (None, w)
      else
        let queue' := drop 1 queue in
        let w1 := emit_queueUpdate guild (store l queue' w) in
        (if (0 <? length queue')%nat then queue' !! 0 else None, w1)
  end.

Definition clearQueueExceptCurrent (guild : Guild) (w : World) : World :=
  match queues_get (guild_id guild) w with
  | None => w
  | Some (_, queue) =>
      match queue with
      | [] => w
      | currentSong :: _ =>
          let '(l', w1) := alloc [currentSong] w in
          emit_queueUpdate guild (queues_set (guild_id guild) l' w1)
      end
  end.

Definition shuffleQueue (draw : nat -> nat) (guild : Guild) (w : World) : World :=
  match queues_get (guild_id guild) w with
  | None => w
  | Some (_, queue) =>
      if (length queue <=? 1)%nat then w
      else
        match queue with
        | [] => w
        | currentSong :: _ =>
            let remainingSongs := drop 1 queue in
            let shuffled :=
              fisher_yates draw (length remainingSongs - 1) remainingSongs in
            let '(l', w1) := alloc (currentSong :: shuffled) w in
            emit_queueUpdate guild (queues_set (guild_id guild) l' w1)
        end
  end.

(** The index test of [moveSong]. *)
Definition invalidMove (len : nat) (fromIndex toIndex : Z) : bool :=
  (fromIndex <? 0)%Z || (fromIndex >=? Z.of_nat len)%Z
  || (toIndex <? 0)%Z || (toIndex >=? Z.of_nat len)%Z
  || (fromIndex =? toIndex)%Z.

(** [const [song] = queue.splice(fromIndex, 1); queue.splice(toIndex, 0,
    song)].  After the index test the first [splice] removes exactly one
    element; the other branch of the model is never taken. *)
Definition moveSong (guild : Guild) (fromIndex toIndex : Z) (w : World) : bool * World :=
  match queues_get (guild_id guild) w with
  | None => (false, w)
  | Some (l, queue) =>
      if (length queue =? 0)%nat then (false, w)
      else if invalidMove (length queue) fromIndex toIndex then (false, w)
      else
        let '(removed, queue1) := splice queue fromIndex 1 [] in
        let queue2 :=
          match removed with
          | sng :: _ => snd (splice queue1 toIndex 0 [sng])
          | [] => queue1
          end in
        (true, emit_queueUpdate guild (store l queue2 w))
  end.

Definition removeSong (guild : Guild) (index : Z) (w : World) : option QueuedSong * World :=
  match queues_get (guild_id guild) w with
  | None => (None, w)
  | Some (l, queue) =>
      if (length queue =? 0)%nat then (None, w)
      else if (index <? 0)%Z || (index >=? Z.of_nat (length queue))%Z then (None, w)
      else
        let '(removed, queue1) := splice queue index 1 [] in
        (removed !! 0, emit_queueUpdate guild (store l queue1 w))
  end.

(** [return this.queues.get(guild.id) || []]: the array of the map itself
    (an array is truthy even when empty), or a new empty array. *)
Definition getQueue (guild : Guild) (w : World) : nat * World :=
  match queues w !! guild_id guild with
  | Some l => (l, w)
  | None => alloc [] w
  end.

End QueueHandler.

Arguments QueuedSong : clear implicits.
Arguments MetaResult : clear implicits.
Arguments Collaborators : clear implicits.
Arguments Effect : clear implicits.
Arguments World : clear implicits.

(** ** The command dispatcher ([CommandHandler.ts]) *)

(** What the dispatcher reads of a [GuildMember] and of a [Message]. *)
Record MemberView := { voice_channel : option string }.

Record Message := {
  content : string;
  author_bot : bool;
  guild : option Guild;
  member : option MemberView
}.

Record CommandRequirements := {
  userInVoiceChannel : option bool;
  messageSentInGuild : option bool
}.

(** [configHandler.getGuildSetting(guild, key, type)] for the two keys the
    dispatcher reads. *)
Record ConfigHandler := {
  COMMAND_PREFIX : option Guild -> string;
  REPLY_TO_UNKNOWN_COMMANDS : option Guild -> bool
}.

Inductive Output : Type :=
| ReplyToMessage (message : Message) (text : string) (flag : bool)
| ConsoleError (label reason : string).

(** Strings are sequences of ASCII characters here: [trim] removes the ASCII
    white space and line terminators, [toLowerCase] maps [A-Z]. *)
Definition isWhiteSpace (c : ascii) : bool :=
  let n := nat_of_ascii c in
  ((9 <=? n)%nat && (n <=? 13)%nat) || (n =? 32)%nat.

Fixpoint trimStart (s : string) : string :=
  match s with
  | String c s' => if isWhiteSpace c then trimStart s' else s
  | EmptyString => EmptyString
  end.

Definition reverse_string (s : string) : string :=
  String.string_of_list_ascii (rev (String.list_ascii_of_string s)).

Definition trim (s : string) : string :=
  reverse_string (trimStart (reverse_string (trimStart s))).

Definition lowerChar (c : ascii) : ascii :=
  let n := nat_of_ascii c in
  if ((65 <=? n)%nat && (n <=? 90)%nat) then ascii_of_nat (n + 32) else c.

Fixpoint toLowerCase (s : string) : string :=
  match s with
  | String c s' => String (lowerChar c) (toLowerCase s')
  | EmptyString => EmptyString
  end.

(** [s.startsWith(p)] *)
Definition startsWith (s p : string) : bool := String.prefix p s.

(** [s.slice(n)] for [0 <= n]. *)
Definition slice (s : string) (n : nat) : string :=
  String.substring n (String.length s - n) s.

(** [s.split(/ +/)]: [cur] is the piece being read, [skipping] says that the
    previous character belonged to a separator. *)
Fixpoint split_spaces (skipping : bool) (cur : string) (s : string) : list string :=
  match s with
  | EmptyString => [cur]
  | String c s' =>
      if Ascii.eqb c " "%char
      then if skipping then split_spaces true cur s'
           else cur :: split_spaces true EmptyString s'
      else split_spaces false (cur +:+ String c EmptyString) s'
  end.

Definition split (s : string) : list string := split_spaces false EmptyString s.

Definition truthy (o : option bool) : bool :=
  match o with Some true => true | _ => false end.

Section CommandHandler.
Context {App : Type}.

(** A command module.  [execute] acts on [App], the part of the program a
    command body can reach; it ends normally or throws. *)
Record Command := {
  name : string;
  command_aliases : option (list string);
  requirements : option CommandRequirements;
  execute : Message -> list string -> App -> App * option string
}.

Record CommandHandler := {
  commands : gmap string Command;
  aliases : gmap string string
}.

Record Bot := {
  handler : CommandHandler;
  app : App;
  outputs : list Output
}.

Definition output (o : Output) (b : Bot) : Bot :=
  {| handler := handler b; app := app b; outputs := outputs b ++ [o] |}.

(** [messageHandler.replyToMessage(message, text, true)] *)
Definition replyToMessage (message : Message) (text : string) (flag : bool) (b : Bot) : Bot :=
  output (ReplyToMessage message text flag) b.

(** Registration of one command module, the body of the loop of
    [loadCommands]. *)
Definition registerCommand (command : Command) (h : CommandHandler) : CommandHandler :=
  {| commands := <[name command := command]> (commands h);
     aliases :=
       match command_aliases command with
       | Some als => foldl (λ m alias, <[alias := name command]> m) (aliases h) als
       | None => aliases h
       end |}.

Definition checkRequirements (message : Message) (command : Command) : bool * string :=
  match requirements command with
  | None => (true, "")
  | Some reqs =>
      if truthy (messageSentInGuild reqs) && negb (bool_decide (is_Some (guild message)))
      then (false, "This command can only be used in a server!")
      else if truthy (userInVoiceChannel reqs)
                && negb (bool_decide (is_Some (member message ≫= voice_channel)))
      then (false, "You must be in a voice channel to use this command!")
      else (true, "")
  end.

Definition handleMessage (config : ConfigHandler) (message : Message) (b : Bot) : Bot :=
  let prefix := COMMAND_PREFIX config (guild message) in
  if negb (startsWith (content message) prefix) || author_bot message then b
  else
    let args := split (trim (slice (content message) (String.length prefix))) in
    let commandName := toLowerCase <$> head args in
    let args := tail args in
    match commandName with
    | None => b
    | Some commandName =>
        if String.eqb commandName "" then b
        else
          let mainCommandName :=
            match aliases (handler b) !! commandName with
            | Some alias => if String.eqb alias "" then commandName else alias
            | None => commandName
            end in
          match commands (handler b) !! mainCommandName with
          | Some command =>
              let '(requirementsMet, errorMessage) := checkRequirements message command in
              if negb requirementsMet
              then replyToMessage message errorMessage true b
              else
                let '(app', thrown) := execute command message args (app b) in
                let b' := {| handler := handler b; app := app'; outputs := outputs b |} in
                match thrown with
                | None => b'
                | Some reason =>
                    replyToMessage message
                      "There was an error while executing that command!" true
                      (output (ConsoleError
                                 ("Error executing command " +:+ mainCommandName +:+ ":")
                                 reason) b')
                end
          | None =>
              if REPLY_TO_UNKNOWN_COMMANDS config (guild message)
              then replyToMessage message "I don't recognize that command!" true b
              else b
          end
    end.

End CommandHandler.

Arguments Command : clear implicits.
Arguments CommandHandler : clear implicits.
Arguments Bot : clear implicits.

(** ** The [shuffle] command ([commands/shuffle.ts]) *)

(** What the body of a command reaches: the queue handler singleton and the
    channel [message.reply] writes to. *)
Record BotApp (Song Member : Type) := {
  engine : World Song Member;
  replies : list (Message * string)
}.
Arguments engine {Song Member} b.
Arguments replies {Song Member} b.

Definition message_reply {Song Member : Type} (message : Message) (text : string)
    (a : BotApp Song Member) : BotApp Song Member :=
  {| engine := engine a; replies := replies a ++ [(message, text)] |}.

(** The command object of [shuffle.ts]; [draw] gives the random draws of its
    call of [shuffleQueue]. *)
Definition shuffle_command {Song Member : Type} (draw : nat -> nat)
  : Command (BotApp Song Member) :=
  {| name := "shuffle";
     command_aliases := None;
     requirements := None;
     execute := λ message _ a,
       match guild message with
       | None => (message_reply message "This command can only be used in a server!" a, None)
       | Some g =>
           let a1 := {| engine := shuffleQueue draw g (engine a); replies := replies a |} in
           (message_reply message "Queue has been shuffled!" a1, None)
       end |}.

(** ** Vocabulary of the statements *)

Close Scope string_scope.

Section Vocabulary.
Context {Song Member : Type}.

(** [w'] is a well-formed world that differs from [w] by the queue of [id],
    now [q'], and by the effects [es] performed since; every other queue
    has the contents it had. *)
Definition updates (id : string) (q' : list (QueuedSong Song))
    (es : list (Effect Member)) (w w' : World Song Member) : Prop :=
  wf w'
  ∧ queueOf w' id = q'
  ∧ (∀ id', id' ≠ id -> queueOf w' id' = queueOf w id')
  ∧ trace w' = trace w ++ es.

(** The draws of a shuffle of [n] elements are in range: at index [i] the
    value of [Math.floor(Math.random() * (i + 1))] is one of [0 .. i]. *)
Definition validDraws (n : nat) (draw : nat -> nat) : Prop :=
  ∀ i, 1 ≤ i < n -> draw i ≤ i.

(** The effects of the playback-start block, as the collaborators answer. *)
Definition playbackEffects {Download : Type} (env : Collaborators Song Member Download)
    (guild : Guild) (uid : string) : list (Effect Member) :=
  Members_fetch guild uid ::
  match members_fetch env guild uid with
  | Rejected reason => [Console_error "Error starting playback:"%string reason]
  | Fulfilled member =>
      StartPlayback guild member ::
      match startPlayback env guild member with
      | Rejected reason => [Console_error "Error starting playback:"%string reason]
      | Fulfilled _ => []
      end
  end.

(** The playback-start block was entered for [guild] among the effects [es]:
    it begins with the resolution of the requester's membership. *)
Definition playbackTriggered (guild : Guild) (es : list (Effect Member)) : Prop :=
  ∃ uid, Members_fetch guild uid ∈ es.

(** The element at [from] taken out and put back at [to]. *)
Definition relocate (q : list (QueuedSong Song)) (from to : nat) : list (QueuedSong Song) :=
  match q !! from with
  | Some x => take to (delete from q) ++ x :: drop to (delete from q)
  | None => q
  end.

(** The queued request [addLinkToQueue] builds. *)
Definition request (md : Song) (requester : User) : QueuedSong Song :=
  {| song := md;
     requestedBy := {| requester_id := user_id requester;
                       requester_username := user_username requester |} |}.

(** A holder of the reference [l] writes to the array: the effect of any
    sequence of [push], [pop], [splice], ... issued outside the handler. *)
Definition external_write (l : nat) (a : list (QueuedSong Song))
    (w : World Song Member) : World Song Member :=
  store l a w.

(** Each order of [a] is the result of the shuffle loop for exactly one
    sequence of draws in range.  When the draws are independent and uniform
    in their ranges, every order then has the same probability. *)
Definition one_draw_per_order {A : Type} (a : list A) : Prop :=
  ∀ p, p ≡ₚ a ->
    ∃ draw,
      validDraws (length a) draw
      ∧ fisher_yates draw (length a - 1) a = p
      ∧ ∀ draw', validDraws (length a) draw' ->
          fisher_yates draw' (length a - 1) a = p ->
          ∀ i, 1 ≤ i < length a -> draw' i = draw i.

(** The positions of an array, each with its element. *)
Definition tagged {A : Type} (a : list A) : list (nat * A) :=
  zip (seq 0 (length a)) a.

(** The public methods of the handler as one family of calls on a guild,
    and what a caller observes of each: the returned value, where the
    array [getQueue] returns is observed through its contents. *)
Inductive Call : Type :=
| CallClearQueue
| CallAddLinkToQueue (link : string) (requester : User)
| CallGetCurrentQueueItem
| CallGetNextQueueItem
| CallClearQueueExceptCurrent
| CallShuffleQueue (draw : nat -> nat)
| CallMoveSong (fromIndex toIndex : Z)
| CallRemoveSong (index : Z)
| CallGetQueue.

Inductive Answer {Download : Type} : Type :=
| AnswerVoid
| AnswerAdded (c : Completion (MetaResult Song Download))
| AnswerItem (o : option (QueuedSong Song))
| AnswerBool (b : bool)
| AnswerQueue (a : list (QueuedSong Song)).

Definition call {Download : Type} (env : Collaborators Song Member Download)
    (c : Call) (guild : Guild) (w : World Song Member)
  : Answer (Download := Download) * World Song Member :=
  match c with
  | CallClearQueue => (AnswerVoid, clearQueue guild w)
  | CallAddLinkToQueue link requester =>
      let '(r, w') := addLinkToQueue env guild link requester w in (AnswerAdded r, w')
  | CallGetCurrentQueueItem => (AnswerItem (getCurrentQueueItem guild w), w)
  | CallGetNextQueueItem =>
      let '(r, w') := getNextQueueItem guild w in (AnswerItem r, w')
  | CallClearQueueExceptCurrent => (AnswerVoid, clearQueueExceptCurrent guild w)
  | CallShuffleQueue draw => (AnswerVoid, shuffleQueue draw guild w)
  | CallMoveSong fromIndex toIndex =>
      let '(r, w') := moveSong guild fromIndex toIndex w in (AnswerBool r, w')
  | CallRemoveSong index =>
      let '(r, w') := removeSong guild index w in (AnswerItem r, w')
  | CallGetQueue =>
      let '(l, w') := getQueue guild w in (AnswerQueue (default [] (heap w' !! l)), w')
  end.

(** The world after a call, seen from the guild it was made for: the
    answer, the queue of the guild, and the other queues as they were. *)
Definition settles {Download : Type} (guild : Guild)
    (ans : Answer (Download := Download)) (q' : list (QueuedSong Song))
    (w : World Song Member) (out : Answer (Download := Download) * World Song Member)
  : Prop :=
  fst out = ans
  ∧ wf (snd out)
  ∧ queueOf (snd out) (guild_id guild) = q'
  ∧ ∀ id', id' ≠ guild_id guild -> queueOf (snd out) id' = queueOf w id'.

End Vocabulary.

(** ** A session used in the examples *)

Module Scenario.

(** Songs are their links; the link ["bad"] resolves to no metadata, the
    link ["down"] makes the resolver fail, and playback never starts. *)
Definition env : Collaborators string string unit :=
  {| getSongMetadata := λ link,
       if String.eqb link "down" then Rejected "resolver unavailable"%string
       else if String.eqb link "bad"
            then Fulfilled {| metadata := None; downloadPromise := tt |}
            else Fulfilled {| metadata := Some link; downloadPromise := tt |};
     members_fetch := λ _ uid, Fulfilled uid;
     startPlayback := λ _ _, Rejected "not in a voice channel"%string |}.

Definition T : Guild := {| guild_id := "T" |}.
Definition U : Guild := {| guild_id := "U" |}.
Definition X : User := {| user_id := "1"; user_username := "x" |}.
Definition Y : User := {| user_id := "2"; user_username := "y" |}.

Definition enqueue (g : Guild) (link : string) (u : User)
    (w : World string string) : World string string :=
  snd (addLinkToQueue env g link u w).

Definition w0 : World string string := initial.
Definition wA : World string string := enqueue T "A" X w0.
Definition wAB : World string string := enqueue T "B" Y wA.
Definition wABC : World string string := enqueue T "C" X wAB.
Definition wABCD : World string string := enqueue U "E" Y (enqueue T "D" Y wABC).

Definition draws (i : nat) : nat := match i with 2 => 0 | _ => 1 end.

Definition A : QueuedSong string := request "A"%string X.
Definition B : QueuedSong string := request "B"%string Y.
Definition C : QueuedSong string := request "C"%string X.
Definition D : QueuedSong string := request "D"%string Y.

Definition config : ConfigHandler :=
  {| COMMAND_PREFIX := λ _, "!"%string; REPLY_TO_UNKNOWN_COMMANDS := λ _, true |}.

Definition bot : Bot (BotApp string string) :=
  {| handler := registerCommand (shuffle_command draws)
                  {| commands := ∅; aliases := ∅ |};
     app := {| engine := wABCD; replies := [] |};
     outputs := [] |}.

Definition chat : Message :=
  {| content := "shuffle please"; author_bot := false; guild := Some T;
     member := None |}.
Definition fromBot : Message :=
  {| content := "!shuffle"; author_bot := true; guild := Some T; member := None |}.
Definition command : Message :=
  {| content := "!Shuffle  now"; author_bot := false; guild := Some T;
     member := None |}.

End Scenario.


(** ** Loading the commands *)

(** [s.endsWith(suffix)] *)
Definition endsWith (s suffix : string) : bool :=
  String.prefix (reverse_string suffix) (reverse_string s).

Section CommandLoading.
Context {App : Type}.

(** [loadCommands]: [commandFiles] is the directory of the commands, each
    file name with the default export of its module; the files whose name
    ends in [.ts] are registered in the order of the directory.  The pair of
    numbers is what the final [console.log] reports: the sizes of the two
    maps. *)
Definition loadCommands (commandFiles : list (string * Command App))
    (h : CommandHandler App) : CommandHandler App * (nat * nat) :=
  let h' :=
    foldl (λ h file, registerCommand (snd file) h) h
      (List.filter (λ file, endsWith (fst file) ".ts") commandFiles) in
  (h', (size (commands h'), size (aliases h'))).

(** Every alias leads to the name of a registered command. *)
Definition aliasesRegistered (h : CommandHandler App) : Prop :=
  ∀ alias n, aliases h !! alias = Some n -> is_Some (commands h !! n).


End CommandLoading.

(** ** Sequences of calls *)

Section Sequences.
Context {Song Member Download : Type}.

(** The metadata the resolver gives for a link, if any. *)
Definition resolves (env : Collaborators Song Member Download) (link : string)
  : option Song :=
  match getSongMetadata env link with
  | Fulfilled result => metadata result
  | Rejected _ => None
  end.

(** The requests of [reqs] (links with their requesters) that are admitted
    to a queue, in order. *)
Definition admitted (env : Collaborators Song Member Download)
    (reqs : list (string * User)) : list (QueuedSong Song) :=
  omap (λ r, (λ md, request md (snd r)) <$> resolves env (fst r)) reqs.

(** [addLinkToQueue] called for each request in turn, each call after the
    previous one has returned or thrown. *)
Definition enqueueAll (env : Collaborators Song Member Download) (guild : Guild)
    (reqs : list (string * User)) (w : World Song Member) : World Song Member :=
  foldl (λ w r, snd (addLinkToQueue env guild (fst r) (snd r) w)) w reqs.

(** How many times the playback-start block was entered in a trace. *)
Definition playbackStarts (es : list (Effect Member)) : nat :=
  length (List.filter (λ e, match e with Members_fetch _ _ => true | _ => false end) es).

(** A session: calls of the methods of the handler, each for a guild. *)
Definition run (env : Collaborators Song Member Download)
    (calls : list (Call * Guild)) (w : World Song Member) : World Song Member :=
  foldl (λ w c, snd (call env (fst c) (snd c) w)) w calls.

End Sequences.

(** * Properties *)

(** ** The heap and the map *)

Section QueueHandlerFacts.
Context {Song Member Download : Type}.
Implicit Types (w : World Song Member) (q a : list (QueuedSong Song)).
Implicit Types (id : string) (l : nat) (e : Effect Member).

Lemma wf_initial : wf (initial (Song := Song) (Member := Member)).
Proof. split; intros i l H; simpl in H; rewrite lookup_empty in H; discriminate. Qed.

Lemma wf_allocated w id l :
  wf w -> queues w !! id = Some l -> ∃ a, heap w !! l = Some a.
Proof.
  intros [Hlt _] Hid. apply lookup_lt_is_Some_2. exact (Hlt id l Hid).
Qed.

Lemma wf_inj w id id' l :
  wf w -> queues w !! id = Some l -> queues w !! id' = Some l -> id = id'.
Proof. intros [_ Hinj] H1 H2. exact (Hinj id l H1 id' l H2 eq_refl). Qed.

(** In a well-formed world a guild is either absent from the map, or bound
    to an allocated array, which is its queue. *)
Lemma wf_cases w id :
  wf w ->
  (queues w !! id = None ∧ queues_get id w = None ∧ queueOf w id = [])
  ∨ (∃ l, queues w !! id = Some l
          ∧ heap w !! l = Some (queueOf w id)
          ∧ queues_get id w = Some (l, queueOf w id)).
Proof.
  intros Hwf. unfold queueOf, queues_get.
  destruct (queues w !! id) as [l|] eqn:Hid; simpl.
  - right. exists l. destruct (wf_allocated w id l Hwf Hid) as [a Ha].
    rewrite Ha. simpl. auto.
  - left. auto.
Qed.

Lemma wf_perform w e : wf w -> wf (perform e w).
Proof. intros H. exact H. Qed.

Lemma queueOf_perform w e id : queueOf (perform e w) id = queueOf w id.
Proof. reflexivity. Qed.

Lemma wf_store w l a : wf w -> wf (store l a w).
Proof.
  intros [Hlt Hinj]. split; [|exact Hinj].
  intros i k Hi. simpl. rewrite length_insert. exact (Hlt i k Hi).
Qed.

Lemma queueOf_store_eq w id l a :
  wf w -> queues w !! id = Some l -> queueOf (store l a w) id = a.
Proof.
  intros Hwf Hid. unfold queueOf, queues_get. simpl. rewrite Hid. simpl.
  destruct (wf_allocated w id l Hwf Hid) as [b Hb].
  rewrite list_lookup_insert_eq; [reflexivity|].
  eapply lookup_lt_Some, Hb.
Qed.

Lemma queueOf_store_ne w id id' l a :
  wf w -> queues w !! id = Some l -> id' ≠ id ->
  queueOf (store l a w) id' = queueOf w id'.
Proof.
  intros Hwf Hid Hne. unfold queueOf, queues_get. simpl.
  destruct (queues w !! id') as [l'|] eqn:Hid'; simpl; [|reflexivity].
  rewrite list_lookup_insert_ne; [reflexivity|].
  intros ->. apply Hne. symmetry. eapply wf_inj; eauto.
Qed.

Lemma wf_alloc w a : wf w -> wf (snd (alloc a w)).
Proof.
  intros [Hlt Hinj]. split; [|exact Hinj].
  intros i k Hi. simpl. rewrite length_app. specialize (Hlt i k Hi). simpl in *. lia.
Qed.

Lemma wf_rebind w id a : wf w -> wf (rebind id a w).
Proof.
  intros [Hlt Hinj]. split.
  - intros i k. simpl. rewrite length_app. simpl.
    destruct (decide (id = i)) as [->|Hne].
    + rewrite lookup_insert_eq. intros [= <-]. lia.
    + rewrite lookup_insert_ne by done. intros Hi. specialize (Hlt i k Hi). simpl in Hlt. lia.
  - intros i k. simpl. intros Hi j k' Hj Hk. subst k'.
    rewrite lookup_insert in Hi, Hj.
    destruct (decide (id = i)) as [Hi'|Hi'], (decide (id = j)) as [Hj'|Hj'].
    + congruence.
    + injection Hi as <-. specialize (Hlt j _ Hj). simpl in Hlt. lia.
    + injection Hj as <-. specialize (Hlt i _ Hi). simpl in Hlt. lia.
    + exact (Hinj i k Hi j k Hj eq_refl).
Qed.

Lemma queueOf_rebind_eq w id a : queueOf (rebind id a w) id = a.
Proof.
  unfold queueOf, queues_get, rebind. simpl. rewrite lookup_insert_eq. simpl.
  rewrite lookup_app_r by lia. rewrite Nat.sub_diag. reflexivity.
Qed.

Lemma queueOf_rebind_ne w id id' a :
  wf w -> id' ≠ id -> queueOf (rebind id a w) id' = queueOf w id'.
Proof.
  intros Hwf Hne. unfold queueOf, queues_get, rebind. simpl.
  rewrite lookup_insert_ne by done.
  destruct (queues w !! id') as [l'|] eqn:Hid'; simpl; [|reflexivity].
  destruct (wf_allocated w id' l' Hwf Hid') as [b Hb].
  rewrite lookup_app_l by (eapply lookup_lt_Some, Hb). reflexivity.
Qed.

Lemma queueOf_alloc w id a : wf w -> queueOf (snd (alloc a w)) id = queueOf w id.
Proof.
  intros Hwf. unfold queueOf, queues_get. simpl.
  destruct (queues w !! id) as [l'|] eqn:Hid'; simpl; [|reflexivity].
  destruct (wf_allocated w id l' Hwf Hid') as [b Hb].
  rewrite lookup_app_l by (eapply lookup_lt_Some, Hb). reflexivity.
Qed.

End QueueHandlerFacts.

(** ** Array primitives *)

Section ArrayFacts.
Context {A : Type}.
Implicit Types (a p : list A) (i j k n : nat).

Lemma splice_remove a (index : Z) :
  (0 ≤ index < Z.of_nat (length a))%Z ->
  splice a index 1 [] =
    (take 1 (drop (Z.to_nat index) a),
     take (Z.to_nat index) a ++ drop (S (Z.to_nat index)) a).
Proof.
  intros H. unfold splice. cbv zeta.
  destruct (Z.ltb_spec index 0) as [?|_]; [lia|].
  rewrite (Z.min_l index) by lia.
  replace (Z.to_nat (Z.min (Z.max 1 0) (Z.of_nat (length a) - index))) with 1 by lia.
  rewrite Nat.add_1_r. reflexivity.
Qed.

Lemma splice_insert a (index : Z) x :
  (0 ≤ index ≤ Z.of_nat (length a))%Z ->
  splice a index 0 [x] =
    ([], take (Z.to_nat index) a ++ x :: drop (Z.to_nat index) a).
Proof.
  intros H. unfold splice. cbv zeta.
  destruct (Z.ltb_spec index 0) as [?|_]; [lia|].
  rewrite (Z.min_l index) by lia.
  replace (Z.to_nat (Z.min (Z.max 0 0) (Z.of_nat (length a) - index))) with 0 by lia.
  rewrite Nat.add_0_r. reflexivity.
Qed.

Lemma take_1_drop a n x : a !! n = Some x -> take 1 (drop n a) = [x].
Proof.
  intros H. rewrite (drop_S a x n H). reflexivity.
Qed.

Lemma length_delete_at a n :
  n < length a -> length (take n a ++ drop (S n) a) = length a - 1.
Proof. intros H. rewrite length_app, length_take, length_drop. lia. Qed.

Lemma swap_length a i j : length (swap a i j) = length a.
Proof.
  unfold swap. destruct (a !! i), (a !! j); rewrite ?length_insert; reflexivity.
Qed.

Lemma swap_lookup_l a i j :
  i < length a -> j < length a -> swap a i j !! i = a !! j.
Proof.
  intros Hi Hj. unfold swap.
  destruct (lookup_lt_is_Some_2 a i Hi) as [x Hx].
  destruct (lookup_lt_is_Some_2 a j Hj) as [y Hy].
  rewrite Hx, Hy.
  destruct (decide (i = j)) as [->|Hne].
  - rewrite list_lookup_insert_eq by (rewrite length_insert; lia). congruence.
  - rewrite list_lookup_insert_ne by congruence.
    rewrite list_lookup_insert_eq by lia. reflexivity.
Qed.

Lemma swap_lookup_r a i j :
  i < length a -> j < length a -> swap a i j !! j = a !! i.
Proof.
  intros Hi Hj. unfold swap.
  destruct (lookup_lt_is_Some_2 a i Hi) as [x Hx].
  destruct (lookup_lt_is_Some_2 a j Hj) as [y Hy].
  rewrite Hx, Hy.
  rewrite list_lookup_insert_eq by (rewrite length_insert; lia). reflexivity.
Qed.

Lemma swap_lookup_other a i j k :
  k ≠ i -> k ≠ j -> swap a i j !! k = a !! k.
Proof.
  intros Hi Hj. unfold swap. destruct (a !! i), (a !! j); try reflexivity.
  rewrite !list_lookup_insert_ne by congruence. reflexivity.
Qed.

Lemma swap_Permutation a i j : swap a i j ≡ₚ a.
Proof.
  unfold swap.
  destruct (a !! i) as [x|] eqn:Hx; [|reflexivity].
  destruct (a !! j) as [y|] eqn:Hy; [|reflexivity].
  destruct (decide (i = j)) as [->|Hne].
  - assert (x = y) as -> by congruence.
    rewrite (list_insert_id a j y Hy). rewrite (list_insert_id a j y Hy). reflexivity.
  - apply Permutation_inj. split.
    + rewrite !length_insert. reflexivity.
    + exists (λ k, if decide (k = i) then j else if decide (k = j) then i else k).
      split.
      * intros k1 k2. repeat case_decide; congruence.
      * intros k. pose proof (lookup_lt_Some _ _ _ Hx). pose proof (lookup_lt_Some _ _ _ Hy).
        repeat case_decide; subst.
        -- rewrite list_lookup_insert_ne by congruence.
           rewrite list_lookup_insert_eq by lia. congruence.
        -- rewrite list_lookup_insert_eq by (rewrite length_insert; lia). congruence.
        -- rewrite !list_lookup_insert_ne by congruence. reflexivity.
Qed.

End ArrayFacts.

(** ** The shuffle loop *)

Section FisherYates.
Context {A : Type}.
Implicit Types (a p : list A) (i j k n : nat) (draw : nat -> nat).

Lemma fisher_yates_length draw i a : length (fisher_yates draw i a) = length a.
Proof.
  revert a. induction i as [|i IH]; intros a; simpl; [reflexivity|].
  rewrite IH. apply swap_length.
Qed.

Lemma fisher_yates_Permutation draw i a : fisher_yates draw i a ≡ₚ a.
Proof.
  revert a. induction i as [|i IH]; intros a; simpl; [reflexivity|].
  rewrite IH. apply swap_Permutation.
Qed.

(** The loop at index [i] leaves the positions above [i] alone. *)
Lemma fisher_yates_above draw i a k :
  (∀ m, 1 ≤ m ≤ i -> draw m ≤ m) -> i < k ->
  fisher_yates draw i a !! k = a !! k.
Proof.
  revert a. induction i as [|i IH]; intros a Hd Hk; simpl; [reflexivity|].
  rewrite IH by (try (intros m Hm; apply Hd); lia).
  apply swap_lookup_other; [lia|].
  specialize (Hd (S i)). lia.
Qed.

(** The loop reads the draws of the indices [1 .. i] only. *)
Lemma fisher_yates_ext draw draw' i a :
  (∀ m, 1 ≤ m ≤ i -> draw m = draw' m) ->
  fisher_yates draw i a = fisher_yates draw' i a.
Proof.
  revert a. induction i as [|i IH]; intros a Hd; simpl; [reflexivity|].
  rewrite (Hd (S i)) by lia. apply IH. intros m Hm. apply Hd. lia.
Qed.

(** Different draws give different orders of an array without repetition. *)
Lemma fisher_yates_inj draw draw' i a :
  NoDup a -> i < length a ->
  (∀ m, 1 ≤ m ≤ i -> draw m ≤ m) ->
  (∀ m, 1 ≤ m ≤ i -> draw' m ≤ m) ->
  fisher_yates draw i a = fisher_yates draw' i a ->
  ∀ m, 1 ≤ m ≤ i -> draw m = draw' m.
Proof.
  revert a. induction i as [|i IH]; intros a Hnd Hlen Hd Hd' Heq m Hm; [lia|].
  simpl in Heq.
  assert (Hj : draw (S i) ≤ S i) by (apply Hd; lia).
  assert (Hj' : draw' (S i) ≤ S i) by (apply Hd'; lia).
  assert (Hlast : a !! draw (S i) = a !! draw' (S i)).
  { rewrite <- (swap_lookup_l a (S i) (draw (S i))) by lia.
    rewrite <- (swap_lookup_l a (S i) (draw' (S i))) by lia.
    rewrite <- (fisher_yates_above draw i _ (S i)) by (try (intros; apply Hd); lia).
    rewrite <- (fisher_yates_above draw' i (swap a (S i) (draw' (S i))) (S i))
      by (try (intros; apply Hd'); lia).
    rewrite Heq. reflexivity. }
  assert (Hsame : draw (S i) = draw' (S i)).
  { destruct (lookup_lt_is_Some_2 a (draw (S i))) as [x Hx]; [lia|].
    eapply NoDup_lookup; [exact Hnd|exact Hx|]. rewrite <- Hlast. exact Hx. }
  destruct (decide (m = S i)) as [->|Hne]; [exact Hsame|].
  rewrite <- Hsame in Heq.
  apply (IH (swap a (S i) (draw (S i)))); try lia.
  - rewrite swap_Permutation. exact Hnd.
  - rewrite swap_length. lia.
  - intros; apply Hd; lia.
  - intros; apply Hd'; lia.
  - exact Heq.
Qed.

Lemma take_Permutation_of_drop a p n :
  a ≡ₚ p -> drop n a = drop n p -> take n a ≡ₚ take n p.
Proof.
  intros Hp Hdrop. apply (Permutation_app_inv_r (drop n a)).
  rewrite take_drop. rewrite Hdrop, take_drop. exact Hp.
Qed.

(** Every order of the array is the result of the loop for draws in range. *)
Lemma fisher_yates_surj i a p :
  a ≡ₚ p -> i < length a -> drop (S i) a = drop (S i) p ->
  ∃ draw, (∀ m, 1 ≤ m ≤ i -> draw m ≤ m) ∧ fisher_yates draw i a = p.
Proof.
  revert a. induction i as [|i IH]; intros a Hp Hlen Hdrop.
  - exists (λ _, 0). split; [intros; lia|]. simpl.
    pose proof (take_Permutation_of_drop a p 1 Hp Hdrop) as Ht.
    rewrite <- (take_drop 1 a), <- (take_drop 1 p). rewrite Hdrop. f_equal.
    destruct a as [|x a]; [simpl in Hlen; lia|].
    destruct p as [|y p]; [apply Permutation_length in Hp; discriminate|].
    simpl in *. rewrite !take_0 in *. apply Permutation_singleton_l in Ht. congruence.
  - assert (Hlenp : length p = length a) by (symmetry; apply Permutation_length, Hp).
    destruct (lookup_lt_is_Some_2 p (S i)) as [y Hy]; [lia|].
    pose proof (take_Permutation_of_drop a p (S (S i)) Hp Hdrop) as Ht.
    assert (Hin : y ∈ take (S (S i)) a).
    { rewrite Ht. apply list_elem_of_lookup. exists (S i).
      rewrite lookup_take_lt by lia. exact Hy. }
    apply list_elem_of_lookup in Hin as [j Hj].
    assert (Hjlt : j < S (S i)).
    { apply lookup_lt_Some in Hj. rewrite length_take in Hj. lia. }
    rewrite lookup_take_lt in Hj by lia.
    set (a' := swap a (S i) j).
    assert (Hlast : a' !! S i = Some y).
    { unfold a'. rewrite swap_lookup_l by lia. exact Hj. }
    assert (Hrest : drop (S (S i)) a' = drop (S (S i)) a).
    { apply list_eq. intros k. rewrite !lookup_drop. unfold a'.
      apply swap_lookup_other; lia. }
    destruct (IH a') as [draw [Hd Hfy]].
    + unfold a'. rewrite swap_Permutation. exact Hp.
    + unfold a'. rewrite swap_length. lia.
    + rewrite (drop_S a' y (S i) Hlast), (drop_S p y (S i) Hy).
      rewrite Hrest, Hdrop. reflexivity.
    + exists (λ m, if decide (m = S i) then j else draw m). split.
      * intros m Hm. case_decide; [lia|]. apply Hd. lia.
      * simpl. rewrite decide_True by reflexivity. fold a'.
        rewrite <- Hfy. apply fisher_yates_ext.
        intros m Hm. rewrite decide_False by lia. reflexivity.
Qed.

(** The loop over a whole array: the draws in range and the orders of the
    array correspond one to one. *)
Lemma fisher_yates_bijective a p :
  a ≠ [] -> NoDup a -> a ≡ₚ p ->
  ∃ draw,
    validDraws (length a) draw
    ∧ fisher_yates draw (length a - 1) a = p
    ∧ ∀ draw', validDraws (length a) draw' ->
        fisher_yates draw' (length a - 1) a = p ->
        ∀ i, 1 ≤ i < length a -> draw' i = draw i.
Proof.
  intros Hne Hnd Hp.
  assert (Hlen : 0 < length a) by (destruct a; [done|simpl; lia]).
  destruct (fisher_yates_surj (length a - 1) a p Hp) as [draw [Hd Hfy]]; [lia| |].
  { replace (S (length a - 1)) with (length a) by lia.
    rewrite drop_all. rewrite (Permutation_length Hp), drop_all. reflexivity. }
  exists draw. split; [|split].
  - intros i Hi. apply Hd. lia.
  - exact Hfy.
  - intros draw' Hd' Hfy' i Hi.
    apply (fisher_yates_inj draw' draw (length a - 1) a); try lia; try assumption.
    + intros m Hm. apply Hd'. lia.
    + congruence.
Qed.

End FisherYates.

(** ** The operations, one by one *)

Section QueueOperations.
Context {Song Member Download : Type}.
Implicit Types (w : World Song Member) (q a : list (QueuedSong Song)).
Implicit Types (id : string) (l : nat) (guild : Guild).
Implicit Types (env : Collaborators Song Member Download).

Lemma updates_same w id : wf w -> updates id (queueOf w id) [] w w.
Proof.
  intros Hwf. split; [exact Hwf|]. split; [reflexivity|]. split; [reflexivity|].
  symmetry. apply app_nil_r.
Qed.

Lemma updates_store_emit w id l a guild :
  wf w -> queues w !! id = Some l ->
  updates id a [Emit_queueUpdate guild] w (emit_queueUpdate guild (store l a w)).
Proof.
  intros Hwf Hid. split; [|split; [|split]].
  - apply (wf_store w l a Hwf).
  - apply (queueOf_store_eq w id l a Hwf Hid).
  - intros id' Hne. apply (queueOf_store_ne w id id' l a Hwf Hid Hne).
  - reflexivity.
Qed.

Lemma updates_rebind_emit w id a guild :
  wf w ->
  updates id a [Emit_queueUpdate guild] w (emit_queueUpdate guild (rebind id a w)).
Proof.
  intros Hwf. split; [|split; [|split]].
  - apply (wf_rebind w id a Hwf).
  - apply (queueOf_rebind_eq w id a).
  - intros id' Hne. apply (queueOf_rebind_ne w id id' a Hwf Hne).
  - reflexivity.
Qed.

Lemma clearQueue_updates guild w :
  wf w ->
  updates (guild_id guild) [] [Emit_queueUpdate guild] w (clearQueue guild w).
Proof. intros Hwf. apply (updates_rebind_emit w (guild_id guild) [] guild Hwf). Qed.

Lemma getCurrentQueueItem_head guild w :
  wf w -> getCurrentQueueItem guild w = head (queueOf w (guild_id guild)).
Proof.
  intros Hwf. unfold getCurrentQueueItem.
  destruct (wf_cases w (guild_id guild) Hwf) as [(_ & -> & ->)|(l & _ & _ & ->)];
    [reflexivity|].
  destruct (queueOf w (guild_id guild)); reflexivity.
Qed.

Lemma getNextQueueItem_empty guild w :
  wf w -> queueOf w (guild_id guild) = [] -> getNextQueueItem guild w = (None, w).
Proof.
  intros Hwf Hq. unfold getNextQueueItem.
  destruct (wf_cases w (guild_id guild) Hwf) as [(_ & -> & _)|(l & _ & _ & ->)];
    [reflexivity|].
  rewrite Hq. reflexivity.
Qed.

Lemma getNextQueueItem_cons guild w x q :
  wf w -> queueOf w (guild_id guild) = x :: q ->
  fst (getNextQueueItem guild w) = head q
  ∧ updates (guild_id guild) q [Emit_queueUpdate guild] w (snd (getNextQueueItem guild w)).
Proof.
  intros Hwf Hq. unfold getNextQueueItem.
  destruct (wf_cases w (guild_id guild) Hwf) as [(_ & _ & Hn)|(l & Hid & _ & ->)];
    [congruence|].
  rewrite Hq. simpl. rewrite drop_0. split.
  - destruct q; reflexivity.
  - apply (updates_store_emit w _ l q guild Hwf Hid).
Qed.

Lemma clearQueueExceptCurrent_empty guild w :
  wf w -> queueOf w (guild_id guild) = [] -> clearQueueExceptCurrent guild w = w.
Proof.
  intros Hwf Hq. unfold clearQueueExceptCurrent.
  destruct (wf_cases w (guild_id guild) Hwf) as [(_ & -> & _)|(l & _ & _ & ->)];
    [reflexivity|].
  rewrite Hq. reflexivity.
Qed.

Lemma clearQueueExceptCurrent_cons guild w x q :
  wf w -> queueOf w (guild_id guild) = x :: q ->
  updates (guild_id guild) [x] [Emit_queueUpdate guild] w (clearQueueExceptCurrent guild w).
Proof.
  intros Hwf Hq. unfold clearQueueExceptCurrent.
  destruct (wf_cases w (guild_id guild) Hwf) as [(_ & _ & Hn)|(l & Hid & _ & ->)];
    [congruence|].
  rewrite Hq. apply (updates_rebind_emit w (guild_id guild) [x] guild Hwf).
Qed.

Lemma shuffleQueue_short draw guild w :
  wf w -> length (queueOf w (guild_id guild)) ≤ 1 -> shuffleQueue draw guild w = w.
Proof.
  intros Hwf Hq. unfold shuffleQueue.
  destruct (wf_cases w (guild_id guild) Hwf) as [(_ & -> & _)|(l & _ & _ & ->)];
    [reflexivity|].
  destruct (Nat.leb_spec (length (queueOf w (guild_id guild))) 1); [reflexivity|lia].
Qed.

Lemma shuffleQueue_long draw guild w x q :
  wf w -> queueOf w (guild_id guild) = x :: q -> q ≠ [] ->
  updates (guild_id guild) (x :: fisher_yates draw (length q - 1) q)
    [Emit_queueUpdate guild] w (shuffleQueue draw guild w).
Proof.
  intros Hwf Hq Hne. unfold shuffleQueue.
  destruct (wf_cases w (guild_id guild) Hwf) as [(_ & _ & Hn)|(l & Hid & _ & ->)];
    [congruence|].
  rewrite Hq. destruct q as [|y q]; [done|].
  simpl length. simpl Nat.leb. cbv iota. rewrite skipn_cons, drop_0.
  apply (updates_rebind_emit w (guild_id guild) _ guild Hwf).
Qed.

Lemma invalidMove_false len (fromIndex toIndex : Z) :
  invalidMove len fromIndex toIndex = false ↔
  (0 ≤ fromIndex < Z.of_nat len)%Z ∧ (0 ≤ toIndex < Z.of_nat len)%Z
  ∧ fromIndex ≠ toIndex.
Proof.
  unfold invalidMove. rewrite !orb_false_iff.
  rewrite !Z.ltb_ge, !Z.geb_leb, !Z.leb_gt, Z.eqb_neq. lia.
Qed.

Lemma moveSong_rejected guild (fromIndex toIndex : Z) w :
  wf w ->
  queueOf w (guild_id guild) = []
  ∨ invalidMove (length (queueOf w (guild_id guild))) fromIndex toIndex = true ->
  moveSong guild fromIndex toIndex w = (false, w).
Proof.
  intros Hwf Hq. unfold moveSong.
  destruct (wf_cases w (guild_id guild) Hwf) as [(_ & -> & _)|(l & _ & _ & ->)];
    [reflexivity|].
  destruct (length (queueOf w (guild_id guild)) =? 0)%nat eqn:Hlen; [reflexivity|].
  destruct Hq as [Hq| ->]; [|reflexivity].
  rewrite Hq in Hlen. discriminate.
Qed.

Lemma moveSong_accepted guild (fromIndex toIndex : Z) w :
  wf w ->
  invalidMove (length (queueOf w (guild_id guild))) fromIndex toIndex = false ->
  fst (moveSong guild fromIndex toIndex w) = true
  ∧ updates (guild_id guild)
      (relocate (queueOf w (guild_id guild)) (Z.to_nat fromIndex) (Z.to_nat toIndex))
      [Emit_queueUpdate guild] w (snd (moveSong guild fromIndex toIndex w)).
Proof.
  intros Hwf Hv. pose proof Hv as Hvalid.
  apply invalidMove_false in Hvalid as (Hf & Ht & Hne).
  unfold moveSong.
  destruct (wf_cases w (guild_id guild) Hwf) as [(_ & _ & Hn)|(l & Hid & _ & ->)].
  { rewrite Hn in Hf. simpl in Hf. lia. }
  set (q := queueOf w (guild_id guild)) in *.
  destruct (Nat.eqb_spec (length q) 0) as [Hz|_]; [lia|].
  rewrite Hv. rewrite splice_remove by lia.
  destruct (lookup_lt_is_Some_2 q (Z.to_nat fromIndex)) as [x Hx]; [lia|].
  rewrite (take_1_drop q _ x Hx).
  rewrite splice_insert by (rewrite length_delete_at; lia).
  simpl. split; [reflexivity|].
  unfold relocate. rewrite Hx, delete_take_drop.
  apply (updates_store_emit w _ l _ guild Hwf Hid).
Qed.

Lemma removeSong_rejected guild (index : Z) w :
  wf w ->
  ¬ (0 ≤ index < Z.of_nat (length (queueOf w (guild_id guild))))%Z ->
  removeSong guild index w = (None, w).
Proof.
  intros Hwf Hq. unfold removeSong.
  destruct (wf_cases w (guild_id guild) Hwf) as [(_ & -> & _)|(l & _ & _ & ->)];
    [reflexivity|].
  destruct (length (queueOf w (guild_id guild)) =? 0)%nat eqn:Hlen; [reflexivity|].
  destruct (Z.ltb_spec index 0); [reflexivity|]. simpl.
  destruct (Z.geb_spec index (Z.of_nat (length (queueOf w (guild_id guild)))));
    [reflexivity|lia].
Qed.

Lemma removeSong_accepted guild (index : Z) w :
  wf w ->
  (0 ≤ index < Z.of_nat (length (queueOf w (guild_id guild))))%Z ->
  fst (removeSong guild index w) = queueOf w (guild_id guild) !! Z.to_nat index
  ∧ updates (guild_id guild) (delete (Z.to_nat index) (queueOf w (guild_id guild)))
      [Emit_queueUpdate guild] w (snd (removeSong guild index w)).
Proof.
  intros Hwf Hi. unfold removeSong.
  destruct (wf_cases w (guild_id guild) Hwf) as [(_ & _ & Hn)|(l & Hid & _ & ->)].
  { rewrite Hn in Hi. simpl in Hi. lia. }
  set (q := queueOf w (guild_id guild)) in *.
  destruct (Nat.eqb_spec (length q) 0) as [Hz|_]; [lia|].
  destruct (Z.ltb_spec index 0); [lia|]. rewrite orb_false_l.
  destruct (Z.geb_spec index (Z.of_nat (length q))); [lia|].
  rewrite splice_remove by lia.
  destruct (lookup_lt_is_Some_2 q (Z.to_nat index)) as [x Hx]; [lia|].
  rewrite (take_1_drop q _ x Hx). simpl. split; [symmetry; exact Hx|].
  rewrite delete_take_drop.
  apply (updates_store_emit w _ l _ guild Hwf Hid).
Qed.

End QueueOperations.

Section Enqueue.
Context {Song Member Download : Type}.
Implicit Types (w : World Song Member) (q a : list (QueuedSong Song)).
Implicit Types (id : string) (l : nat) (guild : Guild).
Implicit Types (env : Collaborators Song Member Download).

Lemma tryStartPlayback_trace env guild uid w :
  tryStartPlayback env guild uid w =
    {| queues := queues w; heap := heap w;
       trace := trace w ++ playbackEffects env guild uid |}.
Proof.
  unfold tryStartPlayback, playbackEffects, perform.
  destruct (members_fetch env guild uid) as [m|r]; simpl.
  - destruct (startPlayback env guild m); simpl; rewrite <- ?app_assoc; reflexivity.
  - rewrite <- app_assoc. reflexivity.
Qed.

Lemma updates_then_effects id q es es' w w' :
  updates id q es w w' ->
  updates id q (es ++ es') w
    {| queues := queues w'; heap := heap w'; trace := trace w' ++ es' |}.
Proof.
  intros (Hwf & Hq & Hother & Htr). split; [|split; [|split]].
  - exact Hwf.
  - exact Hq.
  - exact Hother.
  - simpl. rewrite Htr, app_assoc. reflexivity.
Qed.

Lemma array_push_store w l a x :
  heap w !! l = Some a -> array_push l x w = store l (a ++ [x]) w.
Proof. intros H. unfold array_push. rewrite H. reflexivity. Qed.

Lemma addLinkToQueue_rejected env guild link requester w reason :
  getSongMetadata env link = Rejected reason ->
  addLinkToQueue env guild link requester w = (Throw reason, w).
Proof. intros H. unfold addLinkToQueue. rewrite H. reflexivity. Qed.

Lemma addLinkToQueue_no_metadata env guild link requester w result :
  getSongMetadata env link = Fulfilled result -> metadata result = None ->
  addLinkToQueue env guild link requester w
  = (Throw "Could not fetch song metadata"%string, w).
Proof. intros H Hmd. unfold addLinkToQueue. rewrite H, Hmd. reflexivity. Qed.

Lemma addLinkToQueue_resolved env guild link requester w result md :
  wf w ->
  getSongMetadata env link = Fulfilled result -> metadata result = Some md ->
  fst (addLinkToQueue env guild link requester w)
    = Return {| metadata := Some md; downloadPromise := downloadPromise result |}
  ∧ updates (guild_id guild) (queueOf w (guild_id guild) ++ [request md requester])
      (Emit_queueUpdate guild ::
         match queueOf w (guild_id guild) with
         | [] => playbackEffects env guild (user_id requester)
         | _ :: _ => []
         end)
      w (snd (addLinkToQueue env guild link requester w)).
Proof.
  intros Hwf Hmeta Hmd. unfold addLinkToQueue. rewrite Hmeta, Hmd.
  split; [reflexivity|]. cbv zeta. fold (request md requester).
  destruct (wf_cases w (guild_id guild) Hwf) as [(Hid & _ & Hq)|(l & Hid & Hl & _)].
  - rewrite Hid, Hq.
    change (let '(l, w0) := alloc [] w in queues_set (guild_id guild) l w0)
      with (rebind (guild_id guild) [] w).
    pose proof (wf_rebind w (guild_id guild) [] Hwf) as Hwf1.
    assert (Hid1 : queues (rebind (guild_id guild) [] w) !! guild_id guild
                   = Some (length (heap w))) by apply lookup_insert_eq.
    assert (Hl1 : heap (rebind (guild_id guild) [] w) !! length (heap w) = Some []).
    { simpl. rewrite lookup_app_r by lia. rewrite Nat.sub_diag. reflexivity. }
    rewrite Hid1, (array_push_store _ _ [] _ Hl1).
    assert (Hl3 : heap (emit_queueUpdate guild
                    (store (length (heap w)) ([] ++ [request md requester])
                       (rebind (guild_id guild) [] w))) !! length (heap w)
                  = Some [request md requester]).
    { simpl. apply list_lookup_insert_eq. rewrite length_app. simpl. lia. }
    rewrite Hl3. simpl length. simpl Nat.leb. cbv iota.
    rewrite tryStartPlayback_trace.
    apply (updates_then_effects _ _ [Emit_queueUpdate guild]).
    pose proof (updates_store_emit _ (guild_id guild) _ ([] ++ [request md requester])
                  guild Hwf1 Hid1) as (Hw & Hq' & Ho & Ht).
    split; [exact Hw|]. split; [exact Hq'|]. split; [|exact Ht].
    intros id' Hne. rewrite (Ho id' Hne).
    apply (queueOf_rebind_ne w (guild_id guild) id' [] Hwf Hne).
  - rewrite Hid, Hid, (array_push_store _ _ _ _ Hl).
    assert (Hl3 : heap (emit_queueUpdate guild
                    (store l (queueOf w (guild_id guild) ++ [request md requester]) w)) !! l
                  = Some (queueOf w (guild_id guild) ++ [request md requester])).
    { simpl. apply list_lookup_insert_eq. eapply lookup_lt_Some, Hl. }
    rewrite Hl3, length_app. simpl length.
    destruct (queueOf w (guild_id guild)) as [|x q] eqn:Hq.
    + simpl length. simpl Nat.leb. cbv iota.
      rewrite tryStartPlayback_trace.
      apply (updates_then_effects _ _ [Emit_queueUpdate guild]).
      apply (updates_store_emit w _ l _ guild Hwf Hid).
    + destruct (Nat.leb_spec (length (x :: q) + 1) 1) as [Hle|_];
        [simpl in Hle; lia|].
      apply (updates_store_emit w _ l _ guild Hwf Hid).
Qed.

Lemma getQueue_contents guild w :
  wf w ->
  heap (snd (getQueue guild w)) !! fst (getQueue guild w)
    = Some (queueOf w (guild_id guild))
  ∧ updates (guild_id guild) (queueOf w (guild_id guild)) [] w (snd (getQueue guild w)).
Proof.
  intros Hwf. unfold getQueue.
  destruct (wf_cases w (guild_id guild) Hwf) as [(Hid & _ & Hq)|(l & Hid & Hl & _)];
    rewrite Hid.
  - rewrite Hq. split.
    + simpl. rewrite lookup_app_r by lia. rewrite Nat.sub_diag. reflexivity.
    + split; [|split; [|split]].
      * apply (wf_alloc w [] Hwf).
      * rewrite (queueOf_alloc w _ [] Hwf). exact Hq.
      * intros id' _. apply (queueOf_alloc w id' [] Hwf).
      * simpl. symmetry. apply app_nil_r.
  - split; [exact Hl|]. apply (updates_same w _ Hwf).
Qed.

Lemma playbackEffects_fetch env guild uid :
  playbackTriggered guild (playbackEffects env guild uid).
Proof. exists uid. unfold playbackEffects. apply elem_of_cons. left. reflexivity. Qed.

Lemma playbackEffects_start env guild uid m :
  StartPlayback guild m ∈ playbackEffects env guild uid
  ↔ members_fetch env guild uid = Fulfilled m.
Proof.
  unfold playbackEffects. rewrite elem_of_cons.
  destruct (members_fetch env guild uid) as [m'|r].
  - rewrite elem_of_cons. split.
    + intros [H|[H|H]]; [discriminate|congruence|].
      destruct (startPlayback env guild m').
      * apply elem_of_nil in H. destruct H.
      * apply list_elem_of_singleton in H. discriminate.
    + intros [= ->]. right. left. reflexivity.
  - rewrite list_elem_of_singleton. split; [intros [H|H]; discriminate|discriminate].
Qed.

End Enqueue.

(** ** Orders and positions *)

Section Orders.
Context {A : Type}.
Implicit Types (a p : list A) (i j k n : nat).

Lemma one_draw_per_order_NoDup a : a ≠ [] -> NoDup a -> one_draw_per_order a.
Proof.
  intros Hne Hnd p Hp. apply fisher_yates_bijective; [exact Hne|exact Hnd|].
  symmetry. exact Hp.
Qed.

Lemma tagged_snd a : (tagged a).*2 = a.
Proof. unfold tagged. apply snd_zip. rewrite length_seq. lia. Qed.

Lemma tagged_NoDup a : NoDup (tagged a).
Proof.
  apply (NoDup_fmap_1 fst). unfold tagged.
  rewrite fst_zip by (rewrite length_seq; lia). apply NoDup_seq.
Qed.

Lemma tagged_length a : length (tagged a) = length a.
Proof. rewrite <- (tagged_snd a) at 2. rewrite length_fmap. reflexivity. Qed.

Lemma swap_fmap {B : Type} (f : A -> B) a i j :
  swap (f <$> a) i j = f <$> swap a i j.
Proof.
  unfold swap. rewrite !list_lookup_fmap.
  destruct (a !! i), (a !! j); simpl; try reflexivity.
  rewrite !list_fmap_insert. reflexivity.
Qed.

Lemma fisher_yates_fmap {B : Type} (f : A -> B) draw i a :
  fisher_yates draw i (f <$> a) = f <$> fisher_yates draw i a.
Proof.
  revert a. induction i as [|i IH]; intros a; simpl; [reflexivity|].
  rewrite swap_fmap. apply IH.
Qed.

End Orders.

(** The shuffle of an array is the shuffle of its positions. *)
Lemma fisher_yates_tagged {A : Type} (draw : nat -> nat) (i : nat) (a : list A) :
  fisher_yates draw i a = (fisher_yates draw i (tagged a)).*2.
Proof. rewrite <- fisher_yates_fmap, tagged_snd. reflexivity. Qed.

Lemma relocate_lookup {Song : Type} (q : list (QueuedSong Song)) (from to : nat) :
  from < length q -> to < length q -> relocate q from to !! to = q !! from.
Proof.
  intros Hf Ht. unfold relocate.
  destruct (lookup_lt_is_Some_2 q from Hf) as [x Hx]. rewrite Hx.
  assert (Hlen : length (take to (delete from q)) = to).
  { rewrite length_take, length_delete by eauto. lia. }
  rewrite lookup_app_r by lia. rewrite Hlen, Nat.sub_diag. reflexivity.
Qed.

Lemma relocate_delete {Song : Type} (q : list (QueuedSong Song)) (from to : nat) :
  from < length q -> to < length q ->
  delete to (relocate q from to) = delete from q.
Proof.
  intros Hf Ht. unfold relocate.
  destruct (lookup_lt_is_Some_2 q from Hf) as [x Hx]. rewrite Hx.
  assert (Hlen : length (take to (delete from q)) = to).
  { rewrite length_take, length_delete by eauto. lia. }
  rewrite <- Hlen at 1. rewrite delete_middle. apply take_drop.
Qed.

Lemma relocate_Permutation {Song : Type} (q : list (QueuedSong Song)) (from to : nat) :
  relocate q from to ≡ₚ q.
Proof.
  unfold relocate. destruct (q !! from) as [x|] eqn:Hx; [|reflexivity].
  rewrite <- Permutation_middle, take_drop. symmetry.
  apply delete_Permutation, Hx.
Qed.

(** * The claims *)

(** C1. [shuffleQueue] changes nothing and notifies nobody when the guild's
    queue has at most one element.  On a queue of two or more elements the
    element at position 0 stays, the elements after it are the same up to
    their order, [queueUpdate] is emitted, and the new order of the suffix
    is the one the Fisher-Yates loop computes from the draws, going down
    from the last index of the suffix and exchanging each position with the
    drawn earlier-or-equal one.  Each order of the positions of the suffix
    (and of its elements, when they are pairwise distinct) is the result of
    exactly one sequence of draws in range, so uniform draws give a uniform
    order. *)
Theorem shuffleQueue_pins_current_and_permutes {Song Member : Type}
    (draw : nat -> nat) (guild : Guild) (w : World Song Member) :
  wf w ->
  let id := guild_id guild in
  let q := queueOf w id in
  (length q ≤ 1 -> shuffleQueue draw guild w = w)
  ∧ (2 ≤ length q ->
     let w' := shuffleQueue draw guild w in
     let suffix := drop 1 q in
     wf w'
     ∧ trace w' = trace w ++ [Emit_queueUpdate guild]
     ∧ head (queueOf w' id) = head q
     ∧ drop 1 (queueOf w' id) ≡ₚ suffix
     ∧ drop 1 (queueOf w' id) = fisher_yates draw (length suffix - 1) suffix
     ∧ drop 1 (queueOf w' id)
       = (fisher_yates draw (length suffix - 1) (tagged suffix)).*2
     ∧ one_draw_per_order (tagged suffix)
     ∧ (NoDup suffix -> one_draw_per_order suffix)).
Proof.
  intros Hwf id q. split.
  - intros Hlen. apply (shuffleQueue_short draw guild w Hwf Hlen).
  - intros Hlen w' suffix.
    destruct q as [|x rest] eqn:Hq; [simpl in Hlen; lia|].
    assert (Hne : rest ≠ []) by (intros ->; simpl in Hlen; lia).
    destruct (shuffleQueue_long draw guild w x rest Hwf Hq Hne) as (Hwf' & Hq' & _ & Htr).
    fold w' id in Hwf', Hq', Htr.
    assert (Hs : suffix = rest) by (unfold suffix; rewrite skipn_cons; apply drop_0).
    rewrite Hs, Hq'. rewrite skipn_cons, drop_0.
    split; [exact Hwf'|]. split; [exact Htr|]. split; [reflexivity|].
    split; [apply fisher_yates_Permutation|]. split; [reflexivity|].
    split; [apply fisher_yates_tagged|]. split.
    + apply one_draw_per_order_NoDup; [|apply tagged_NoDup].
      intros Hnil. apply Hne. rewrite <- (tagged_snd rest), Hnil. reflexivity.
    + intros Hnd. apply (one_draw_per_order_NoDup rest Hne Hnd).
Qed.

Lemma shuffleQueue_pins_current_and_permutes_witness :
  wf Scenario.wABCD
  ∧ 2 ≤ length (queueOf Scenario.wABCD (guild_id Scenario.T))
  ∧ head (queueOf (shuffleQueue Scenario.draws Scenario.T Scenario.wABCD)
            (guild_id Scenario.T))
    = head (queueOf Scenario.wABCD (guild_id Scenario.T)).
Proof.
  assert (Hwf : wf Scenario.wABCD) by compute_done.
  assert (Hlen : 2 ≤ length (queueOf Scenario.wABCD (guild_id Scenario.T)))
    by (vm_compute; lia).
  split; [exact Hwf|]. split; [exact Hlen|].
  destruct (shuffleQueue_pins_current_and_permutes
              Scenario.draws Scenario.T Scenario.wABCD Hwf) as [_ H].
  destruct (H Hlen) as (_ & _ & Hhead & _). exact Hhead.
Defined.

Example shuffleQueue_session :
  queueOf (shuffleQueue Scenario.draws Scenario.T Scenario.wABCD) "T"
  = [Scenario.A; Scenario.D; Scenario.C; Scenario.B].
Proof. vm_compute. reflexivity. Qed.

(** C2. When the link resolves, [addLinkToQueue] returns normally whatever
    the playback collaborators answer, and the request stays at the tail of
    the guild's queue.  The playback-start block is entered exactly when
    the queue was empty before the call, which is exactly when the append
    made its length 1; [startPlayback] itself is called exactly when, in
    addition, the requester's membership resolved.  On a queue that was not
    empty the call only emits [queueUpdate]. *)
Theorem addLinkToQueue_starts_playback_iff_was_empty {Song Member Download : Type}
    (env : Collaborators Song Member Download) (guild : Guild) (link : string)
    (requester : User) (w : World Song Member)
    (result : MetaResult Song Download) (md : Song) :
  wf w ->
  getSongMetadata env link = Fulfilled result ->
  metadata result = Some md ->
  let id := guild_id guild in
  let out := addLinkToQueue env guild link requester w in
  ∃ es,
    trace (snd out) = trace w ++ es
    ∧ fst out = Return {| metadata := Some md; downloadPromise := downloadPromise result |}
    ∧ queueOf (snd out) id = queueOf w id ++ [request md requester]
    ∧ (playbackTriggered guild es ↔ queueOf w id = [])
    ∧ (queueOf w id = [] ↔ length (queueOf (snd out) id) = 1)
    ∧ (∀ m, StartPlayback guild m ∈ es ↔
              queueOf w id = []
              ∧ members_fetch env guild (user_id requester) = Fulfilled m)
    ∧ (queueOf w id ≠ [] -> es = [Emit_queueUpdate guild]).
Proof.
  intros Hwf Hmeta Hmd id out.
  destruct (addLinkToQueue_resolved env guild link requester w result md Hwf Hmeta Hmd)
    as (Hret & _ & Hq & _ & Htr).
  fold out id in Hret, Hq, Htr.
  eexists. split; [exact Htr|]. split; [exact Hret|]. split; [exact Hq|].
  rewrite Hq, length_app. simpl length.
  destruct (queueOf w id) as [|x q]; simpl length.
  - split; [|split; [|split]].
    + split; [reflexivity|]. intros _.
      destruct (playbackEffects_fetch env guild (user_id requester)) as [uid Hin].
      exists uid. apply elem_of_cons. right. exact Hin.
    + split; [reflexivity|done].
    + intros m. rewrite elem_of_cons, playbackEffects_start. split.
      * intros [H|H]; [discriminate|]. split; [reflexivity|exact H].
      * intros [_ H]. right. exact H.
    + done.
  - split; [|split; [|split]].
    + split; [|done]. intros [uid Hin].
      apply list_elem_of_singleton in Hin. discriminate.
    + split; [done|lia].
    + intros m. split; [|intros [? _]; done]. intros Hin.
      apply list_elem_of_singleton in Hin. discriminate.
    + reflexivity.
Qed.

Lemma addLinkToQueue_starts_playback_iff_was_empty_witness :
  wf Scenario.w0
  ∧ fst (addLinkToQueue Scenario.env Scenario.T "A" Scenario.X Scenario.w0)
    = Return {| metadata := Some "A"%string; downloadPromise := tt |}
  ∧ queueOf (snd (addLinkToQueue Scenario.env Scenario.T "A" Scenario.X Scenario.w0))
      (guild_id Scenario.T)
    = queueOf Scenario.w0 (guild_id Scenario.T) ++ [request "A"%string Scenario.X].
Proof.
  assert (Hwf : wf Scenario.w0) by compute_done.
  split; [exact Hwf|].
  destruct (addLinkToQueue_starts_playback_iff_was_empty
              Scenario.env Scenario.T "A" Scenario.X Scenario.w0
              {| metadata := Some "A"%string; downloadPromise := tt |} "A"%string
              Hwf eq_refl eq_refl) as (es & _ & Hret & Hq & _).
  split; [exact Hret|exact Hq].
Defined.

(** The session of the specification: the first request of a guild starts
    playback (here the collaborator fails, which is logged), the second
    does not. *)
Example addLinkToQueue_session :
  queueOf Scenario.wA "T" = [Scenario.A]
  ∧ trace Scenario.wA
    = [Emit_queueUpdate Scenario.T; Members_fetch Scenario.T "1";
       StartPlayback Scenario.T "1"%string;
       Console_error "Error starting playback:" "not in a voice channel"]
  ∧ queueOf Scenario.wAB "T" = [Scenario.A; Scenario.B]
  ∧ trace Scenario.wAB = trace Scenario.wA ++ [Emit_queueUpdate Scenario.T].
Proof. vm_compute. auto. Qed.

(** C3, as the code has it.  [clearQueueExceptCurrent] keeps at most the
    first element of the guild's queue.  On an empty or absent queue it
    changes nothing, notifies nobody and does not fail.  On every other
    queue, also one of a single element, it binds the guild to a new array
    holding the first element alone and emits [queueUpdate]. *)
Theorem clearQueueExceptCurrent_keeps_current {Song Member : Type}
    (guild : Guild) (w : World Song Member) :
  wf w ->
  let id := guild_id guild in
  let q := queueOf w id in
  let w' := clearQueueExceptCurrent guild w in
  queueOf w' id = take 1 q
  ∧ (q = [] -> w' = w)
  ∧ (q ≠ [] ->
     wf w' ∧ trace w' = trace w ++ [Emit_queueUpdate guild]
     ∧ queues w' !! id = Some (length (heap w))
     ∧ heap w' = heap w ++ [take 1 q]).
Proof.
  intros Hwf id q w'. subst id q w'.
  destruct (queueOf w (guild_id guild)) as [|x rest] eqn:Hq.
  - pose proof (clearQueueExceptCurrent_empty guild w Hwf Hq) as Hw.
    split; [|split; [intros _; exact Hw|done]].
    rewrite Hw. exact Hq.
  - destruct (clearQueueExceptCurrent_cons guild w x rest Hwf Hq) as (Hwf' & Hq' & _ & Htr).
    split; [exact Hq'|]. split; [done|]. intros _.
    split; [exact Hwf'|]. split; [exact Htr|].
    unfold clearQueueExceptCurrent.
    destruct (wf_cases w (guild_id guild) Hwf) as [(_ & _ & Hn)|(l & _ & _ & ->)];
      [congruence|].
    rewrite Hq. simpl. rewrite take_0.
    split; [apply lookup_insert_eq|reflexivity].
Qed.

Lemma clearQueueExceptCurrent_keeps_current_witness :
  wf Scenario.wABC
  ∧ queueOf Scenario.wABC (guild_id Scenario.T) ≠ []
  ∧ queueOf (clearQueueExceptCurrent Scenario.T Scenario.wABC) (guild_id Scenario.T)
    = take 1 (queueOf Scenario.wABC (guild_id Scenario.T))
  ∧ trace (clearQueueExceptCurrent Scenario.T Scenario.wABC)
    = trace Scenario.wABC ++ [Emit_queueUpdate Scenario.T].
Proof.
  assert (Hwf : wf Scenario.wABC) by compute_done.
  assert (Hne : queueOf Scenario.wABC (guild_id Scenario.T) ≠ [])
    by (vm_compute; discriminate).
  split; [exact Hwf|]. split; [exact Hne|].
  destruct (clearQueueExceptCurrent_keeps_current Scenario.T Scenario.wABC Hwf)
    as (Hq & _ & H).
  destruct (H Hne) as (_ & Htr & _).
  split; [exact Hq|exact Htr].
Defined.

(** On [[A; B; C]] the result is [[A]]; on the empty queue it is the empty
    queue. *)
Example clearQueueExceptCurrent_session :
  queueOf (clearQueueExceptCurrent Scenario.T Scenario.wABC) "T" = [Scenario.A]
  ∧ clearQueueExceptCurrent Scenario.T Scenario.w0 = Scenario.w0.
Proof. vm_compute. auto. Qed.

(** C3 as stated fails: on the queue [[A]] nothing is removed, and yet
    [queueUpdate] is emitted. *)
Lemma clearQueueExceptCurrent_notifies_without_removal :
  ¬ (∀ es,
       trace (clearQueueExceptCurrent Scenario.T Scenario.wA)
       = trace Scenario.wA ++ es ->
       Emit_queueUpdate Scenario.T ∈ es ->
       length (queueOf (clearQueueExceptCurrent Scenario.T Scenario.wA) "T")
       < length (queueOf Scenario.wA "T")).
Proof.
  intros H. specialize (H [Emit_queueUpdate Scenario.T] eq_refl).
  assert (Hin : Emit_queueUpdate (Member := string) Scenario.T
                ∈ [Emit_queueUpdate Scenario.T])
    by (apply list_elem_of_singleton; reflexivity).
  specialize (H Hin). vm_compute in H. lia.
Qed.

(** C4. [getNextQueueItem] on an empty or absent queue returns [null],
    changes nothing and notifies nobody.  Otherwise it removes the element
    at position 0 in place, so that the next one, if any, is at position 0,
    emits [queueUpdate], and returns the new first element: [null] when the
    queue had one element and is now empty, the former second element when
    it had two or more; the length goes down by exactly one. *)
Theorem getNextQueueItem_advances {Song Member : Type}
    (guild : Guild) (w : World Song Member) :
  wf w ->
  let id := guild_id guild in
  let q := queueOf w id in
  let out := getNextQueueItem guild w in
  (q = [] -> out = (None, w))
  ∧ (q ≠ [] ->
     wf (snd out)
     ∧ queueOf (snd out) id = drop 1 q
     ∧ length (queueOf (snd out) id) = length q - 1
     ∧ trace (snd out) = trace w ++ [Emit_queueUpdate guild]
     ∧ queues (snd out) = queues w
     ∧ fst out = queueOf (snd out) id !! 0)
  ∧ (length q = 1 -> queueOf (snd out) id = [] ∧ fst out = None)
  ∧ (2 ≤ length q -> fst out = q !! 1 ∧ is_Some (fst out)).
Proof.
  intros Hwf id q out. subst id q out.
  destruct (queueOf w (guild_id guild)) as [|x rest] eqn:Hq.
  - split; [intros _; apply (getNextQueueItem_empty guild w Hwf Hq)|].
    split; [done|]. split; simpl; intros; lia.
  - destruct (getNextQueueItem_cons guild w x rest Hwf Hq) as (Hret & Hwf' & Hq' & _ & Htr).
    split; [done|]. rewrite Hq', Hret. rewrite skipn_cons, drop_0.
    split; [|split].
    + intros _. split; [exact Hwf'|]. split; [reflexivity|].
      split; [simpl; lia|]. split; [exact Htr|]. split; [|destruct rest; reflexivity].
      unfold getNextQueueItem.
      destruct (wf_cases w (guild_id guild) Hwf) as [(_ & _ & Hn)|(l & _ & _ & ->)];
        [congruence|].
      rewrite Hq. reflexivity.
    + simpl. intros Hlen. destruct rest; [auto|simpl in Hlen; lia].
    + simpl. intros Hlen. destruct rest as [|y rest]; [simpl in Hlen; lia|].
      simpl. split; [reflexivity|eauto].
Qed.

Lemma getNextQueueItem_advances_witness :
  wf Scenario.wAB
  ∧ 2 ≤ length (queueOf Scenario.wAB (guild_id Scenario.T))
  ∧ fst (getNextQueueItem Scenario.T Scenario.wAB)
    = queueOf Scenario.wAB (guild_id Scenario.T) !! 1.
Proof.
  assert (Hwf : wf Scenario.wAB) by compute_done.
  assert (Hlen : 2 ≤ length (queueOf Scenario.wAB (guild_id Scenario.T)))
    by (vm_compute; lia).
  split; [exact Hwf|]. split; [exact Hlen|].
  destruct (getNextQueueItem_advances Scenario.T Scenario.wAB Hwf) as (_ & _ & _ & H).
  exact (proj1 (H Hlen)).
Defined.

Example getNextQueueItem_session :
  fst (getNextQueueItem Scenario.T Scenario.wAB) = Some Scenario.B
  ∧ queueOf (snd (getNextQueueItem Scenario.T Scenario.wAB)) "T" = [Scenario.B]
  ∧ fst (getNextQueueItem Scenario.T Scenario.wA) = None
  ∧ queueOf (snd (getNextQueueItem Scenario.T Scenario.wA)) "T" = [].
Proof. vm_compute. auto. Qed.

(** C5. For integer indices, [moveSong] returns [false] and leaves the world
    as it is (same arrays, no notification) when the guild's queue is empty
    or absent, when an index is outside [0, length), or when the indices
    are equal.  Otherwise it returns [true], emits [queueUpdate], and puts
    the element that was at [fromIndex] at [toIndex], the other elements
    keeping their relative order; index 0 is treated like any other. *)
Theorem moveSong_relocates_or_rejects {Song Member : Type}
    (guild : Guild) (fromIndex toIndex : Z) (w : World Song Member) :
  wf w ->
  let id := guild_id guild in
  let q := queueOf w id in
  let len := Z.of_nat (length q) in
  let out := moveSong guild fromIndex toIndex w in
  (q = [] ∨ ¬ (0 ≤ fromIndex < len)%Z ∨ ¬ (0 ≤ toIndex < len)%Z
   ∨ fromIndex = toIndex ->
   out = (false, w))
  ∧ ((0 ≤ fromIndex < len)%Z -> (0 ≤ toIndex < len)%Z -> fromIndex ≠ toIndex ->
     let q' := queueOf (snd out) id in
     fst out = true
     ∧ wf (snd out)
     ∧ trace (snd out) = trace w ++ [Emit_queueUpdate guild]
     ∧ q' !! Z.to_nat toIndex = q !! Z.to_nat fromIndex
     ∧ delete (Z.to_nat toIndex) q' = delete (Z.to_nat fromIndex) q
     ∧ length q' = length q
     ∧ q' ≡ₚ q).
Proof.
  intros Hwf id q len out. subst id q len out. split.
  - intros Hbad. apply (moveSong_rejected guild fromIndex toIndex w Hwf).
    destruct Hbad as [Hq|Hbad]; [left; exact Hq|right].
    destruct (invalidMove _ fromIndex toIndex) eqn:Hv; [reflexivity|].
    apply invalidMove_false in Hv. lia.
  - intros Hf Ht Hne.
    assert (Hv : invalidMove (length (queueOf w (guild_id guild))) fromIndex toIndex
                 = false) by (apply invalidMove_false; auto).
    destruct (moveSong_accepted guild fromIndex toIndex w Hwf Hv)
      as (Hret & Hwf' & Hq' & _ & Htr).
    cbv zeta. rewrite Hq'.
    split; [exact Hret|]. split; [exact Hwf'|]. split; [exact Htr|].
    split; [apply relocate_lookup; lia|].
    split; [apply relocate_delete; lia|].
    split; [apply Permutation_length|]; apply relocate_Permutation.
Qed.

Lemma moveSong_relocates_or_rejects_witness :
  wf Scenario.wABCD
  ∧ fst (moveSong Scenario.T 0 2 Scenario.wABCD) = true
  ∧ queueOf (snd (moveSong Scenario.T 0 2 Scenario.wABCD)) (guild_id Scenario.T)
      !! Z.to_nat 2
    = queueOf Scenario.wABCD (guild_id Scenario.T) !! Z.to_nat 0.
Proof.
  assert (Hwf : wf Scenario.wABCD) by compute_done.
  split; [exact Hwf|].
  destruct (moveSong_relocates_or_rejects Scenario.T 0 2 Scenario.wABCD Hwf) as [_ H].
  destruct H as (Hret & _ & _ & Hat & _);
    [vm_compute; split; [discriminate|reflexivity]
    |vm_compute; split; [discriminate|reflexivity]
    |discriminate|].
  split; [exact Hret|exact Hat].
Defined.

Example moveSong_session :
  queueOf (snd (moveSong Scenario.T 0 2 Scenario.wABCD)) "T"
  = [Scenario.B; Scenario.C; Scenario.A; Scenario.D]
  ∧ queueOf (snd (moveSong Scenario.T 3 1 Scenario.wABCD)) "T"
    = [Scenario.A; Scenario.D; Scenario.B; Scenario.C]
  ∧ moveSong Scenario.T 1 1 Scenario.wABCD = (false, Scenario.wABCD)
  ∧ moveSong Scenario.T 1 4 Scenario.wABCD = (false, Scenario.wABCD)
  ∧ moveSong Scenario.T (-1) 1 Scenario.wABCD = (false, Scenario.wABCD).
Proof. vm_compute. auto 6. Qed.

(** C6. For an integer index, [removeSong] returns [null] and leaves the
    world as it is when the guild's queue is empty or absent or the index
    is outside [0, length).  Otherwise it returns the element that was at
    the index, the queue is the old one without that position (one element
    shorter, the others in their order), and [queueUpdate] is emitted. *)
Theorem removeSong_removes_or_rejects {Song Member : Type}
    (guild : Guild) (index : Z) (w : World Song Member) :
  wf w ->
  let id := guild_id guild in
  let q := queueOf w id in
  let out := removeSong guild index w in
  (q = [] ∨ ¬ (0 ≤ index < Z.of_nat (length q))%Z -> out = (None, w))
  ∧ ((0 ≤ index < Z.of_nat (length q))%Z ->
     let n := Z.to_nat index in
     let q' := queueOf (snd out) id in
     fst out = q !! n
     ∧ is_Some (fst out)
     ∧ wf (snd out)
     ∧ q' = take n q ++ drop (S n) q
     ∧ length q' = length q - 1
     ∧ (∀ x, fst out = Some x -> q ≡ₚ x :: q')
     ∧ trace (snd out) = trace w ++ [Emit_queueUpdate guild]).
Proof.
  intros Hwf id q out. subst id q out. split.
  - intros Hbad. apply (removeSong_rejected guild index w Hwf).
    destruct Hbad as [Hq|Hbad]; [|exact Hbad]. rewrite Hq. simpl. lia.
  - intros Hi. cbv zeta.
    destruct (removeSong_accepted guild index w Hwf Hi) as (Hret & Hwf' & Hq' & _ & Htr).
    rewrite Hq', Hret.
    split; [reflexivity|]. split; [apply lookup_lt_is_Some_2; lia|].
    split; [exact Hwf'|]. split; [apply delete_take_drop|].
    split; [rewrite length_delete by (apply lookup_lt_is_Some_2; lia); lia|].
    split; [|exact Htr].
    intros x Hx. apply delete_Permutation, Hx.
Qed.

Lemma removeSong_removes_or_rejects_witness :
  wf Scenario.wABCD
  ∧ fst (removeSong Scenario.T 2 Scenario.wABCD)
    = queueOf Scenario.wABCD (guild_id Scenario.T) !! Z.to_nat 2.
Proof.
  assert (Hwf : wf Scenario.wABCD) by compute_done.
  split; [exact Hwf|].
  destruct (removeSong_removes_or_rejects Scenario.T 2 Scenario.wABCD Hwf) as [_ H].
  destruct H as (Hret & _); [vm_compute; split; [discriminate|reflexivity]|].
  exact Hret.
Defined.

Example removeSong_session :
  fst (removeSong Scenario.T 2 Scenario.wABCD) = Some Scenario.C
  ∧ queueOf (snd (removeSong Scenario.T 2 Scenario.wABCD)) "T"
    = [Scenario.A; Scenario.B; Scenario.D]
  ∧ removeSong Scenario.T 4 Scenario.wABCD = (None, Scenario.wABCD)
  ∧ removeSong Scenario.T (-1) Scenario.wABCD = (None, Scenario.wABCD)
  ∧ removeSong Scenario.T 0 Scenario.w0 = (None, Scenario.w0).
Proof. vm_compute. auto 6. Qed.

(** C7. When the resolver fails for the link, by rejecting or by resolving
    to an object without metadata, [addLinkToQueue] throws and the world is
    the one before the call: the map, every array and the trace, so no
    queue changed and no [queueUpdate] was emitted.  In the second case the
    error is ['Could not fetch song metadata']. *)
Theorem addLinkToQueue_metadata_unavailable {Song Member Download : Type}
    (env : Collaborators Song Member Download) (guild : Guild) (link : string)
    (requester : User) (w : World Song Member) :
  (∀ result, getSongMetadata env link = Fulfilled result -> metadata result = None) ->
  (∃ message, addLinkToQueue env guild link requester w = (Throw message, w))
  ∧ (∀ result, getSongMetadata env link = Fulfilled result ->
       addLinkToQueue env guild link requester w
       = (Throw "Could not fetch song metadata"%string, w))
  ∧ (∀ reason, getSongMetadata env link = Rejected reason ->
       addLinkToQueue env guild link requester w = (Throw reason, w)).
Proof.
  intros Hfail. split; [|split].
  - destruct (getSongMetadata env link) as [result|reason] eqn:Hmeta.
    + eexists. apply (addLinkToQueue_no_metadata env guild link requester w result Hmeta).
      apply Hfail. reflexivity.
    + eexists. apply (addLinkToQueue_rejected env guild link requester w reason Hmeta).
  - intros result Hmeta.
    apply (addLinkToQueue_no_metadata env guild link requester w result Hmeta).
    apply Hfail, Hmeta.
  - intros reason Hmeta.
    apply (addLinkToQueue_rejected env guild link requester w reason Hmeta).
Qed.

Lemma addLinkToQueue_metadata_unavailable_witness :
  addLinkToQueue Scenario.env Scenario.T "bad" Scenario.X Scenario.wAB
  = (Throw "Could not fetch song metadata"%string, Scenario.wAB).
Proof.
  refine (proj1 (proj2 (addLinkToQueue_metadata_unavailable
            Scenario.env Scenario.T "bad" Scenario.X Scenario.wAB _)) _ eq_refl).
  intros result H. vm_compute in H. injection H as <-. reflexivity.
Defined.

Example addLinkToQueue_resolver_down :
  addLinkToQueue Scenario.env Scenario.T "down" Scenario.X Scenario.wAB
  = (Throw "resolver unavailable"%string, Scenario.wAB).
Proof. reflexivity. Qed.

(** C8, as the code has it.  [getQueue] returns an array whose contents are
    the guild's queue, in order, and changes no queue and emits nothing.
    For a guild with an entry in the map the array is the one the handler
    holds: the world is unchanged, and what a caller writes to the array
    becomes the guild's queue (the queues of the other guilds stay).  For a
    guild without an entry it is a new empty array, and writing to it
    changes no queue. *)
Theorem getQueue_returns_the_internal_array {Song Member : Type}
    (guild : Guild) (w : World Song Member) :
  wf w ->
  let id := guild_id guild in
  let l := fst (getQueue guild w) in
  let w' := snd (getQueue guild w) in
  heap w' !! l = Some (queueOf w id)
  ∧ (∀ id', queueOf w' id' = queueOf w id')
  ∧ trace w' = trace w
  ∧ (is_Some (queues w !! id) ->
     queues w !! id = Some l ∧ w' = w
     ∧ ∀ a, queueOf (external_write l a w') id = a
            ∧ ∀ id', id' ≠ id -> queueOf (external_write l a w') id' = queueOf w id')
  ∧ (queues w !! id = None ->
     queueOf w id = []
     ∧ ∀ a id', queueOf (external_write l a w') id' = queueOf w id').
Proof.
  intros Hwf id l w'. subst id l w'.
  destruct (getQueue_contents guild w Hwf) as (Hl & _ & Hq & _ & Htr).
  assert (Hall : ∀ id', queueOf (snd (getQueue guild w)) id' = queueOf w id').
  { intros id'. unfold getQueue. destruct (queues w !! guild_id guild); [reflexivity|].
    apply (queueOf_alloc w id' [] Hwf). }
  split; [exact Hl|]. split; [exact Hall|].
  split; [rewrite Htr; apply app_nil_r|].
  unfold getQueue in *. destruct (queues w !! guild_id guild) as [l|] eqn:Hid; simpl.
  - split; [|intros [=]]. intros _. split; [reflexivity|]. split; [reflexivity|].
    intros a. split.
    + apply (queueOf_store_eq w _ l a Hwf Hid).
    + intros id' Hne. apply (queueOf_store_ne w _ id' l a Hwf Hid Hne).
  - split; [intros [? [=]]|]. intros _.
    destruct (wf_cases w (guild_id guild) Hwf) as [(_ & _ & Hn)|(l & Hid' & _)];
      [|congruence].
    split; [exact Hn|]. intros a id'.
    unfold queueOf, queues_get. simpl.
    destruct (queues w !! id') as [l'|] eqn:Hid'; simpl; [|reflexivity].
    destruct (wf_allocated w id' l' Hwf Hid') as [b Hb].
    pose proof (lookup_lt_Some _ _ _ Hb) as Hlt.
    rewrite list_lookup_insert_ne by lia.
    rewrite lookup_app_l by exact Hlt. reflexivity.
Qed.

Lemma getQueue_returns_the_internal_array_witness :
  wf Scenario.wAB
  ∧ is_Some (queues Scenario.wAB !! guild_id Scenario.T)
  ∧ heap (snd (getQueue Scenario.T Scenario.wAB)) !! fst (getQueue Scenario.T Scenario.wAB)
    = Some (queueOf Scenario.wAB (guild_id Scenario.T))
  ∧ snd (getQueue Scenario.T Scenario.wAB) = Scenario.wAB.
Proof.
  assert (Hwf : wf Scenario.wAB) by compute_done.
  assert (Hin : is_Some (queues Scenario.wAB !! guild_id Scenario.T))
    by (vm_compute; eauto).
  split; [exact Hwf|]. split; [exact Hin|].
  destruct (getQueue_returns_the_internal_array Scenario.T Scenario.wAB Hwf)
    as (Hl & _ & _ & H & _).
  destruct (H Hin) as (_ & Hw & _).
  split; [exact Hl|exact Hw].
Defined.

(** C8 as stated fails: emptying the array [getQueue] returned for a guild
    with the queue [[A; B]] empties the guild's queue. *)
Lemma getQueue_exposes_the_internal_array :
  ¬ (∀ a,
       queueOf (external_write (fst (getQueue Scenario.T Scenario.wAB)) a
                  (snd (getQueue Scenario.T Scenario.wAB))) "T"
       = queueOf (snd (getQueue Scenario.T Scenario.wAB)) "T").
Proof. intros H. specialize (H []). vm_compute in H. discriminate. Qed.

(** ** Isolation of the guilds *)

Section Isolation.
Context {Song Member Download : Type}.
Implicit Types (w : World Song Member) (q : list (QueuedSong Song)).
Implicit Types (guild : Guild) (env : Collaborators Song Member Download).
Implicit Types (ans : Answer (Song := Song) (Download := Download)).

Lemma settles_updates guild ans q' es w w' :
  updates (guild_id guild) q' es w w' -> settles guild ans q' w (ans, w').
Proof. intros (Hwf & Hq & Ho & _). split; [reflexivity|]. auto. Qed.

Lemma settles_same guild ans w : wf w -> settles guild ans (queueOf w (guild_id guild)) w (ans, w).
Proof. intros Hwf. split; [reflexivity|]. auto. Qed.

(** The answer of a call and the queue it leaves are functions of the
    queue of the guild alone. *)
Lemma call_determined env (c : Call) guild q :
  ∃ ans q', ∀ w, wf w -> queueOf w (guild_id guild) = q ->
    settles guild ans q' w (call env c guild w).
Proof.
  destruct c as [|link requester| | | |draw|fromIndex toIndex|index|]; simpl.
  - exists AnswerVoid, []. intros w Hwf _.
    apply (settles_updates _ _ _ _ _ _ (clearQueue_updates guild w Hwf)).
  - destruct (getSongMetadata env link) as [result|reason] eqn:Hmeta.
    + destruct (metadata result) as [md|] eqn:Hmd.
      * eexists (AnswerAdded (Return _)), (q ++ [request md requester]).
        intros w Hwf Hq.
        destruct (addLinkToQueue_resolved env guild link requester w result md
                    Hwf Hmeta Hmd) as [Hret Hup].
        destruct (addLinkToQueue env guild link requester w) as [r w'].
        simpl in Hret, Hup. rewrite Hret, Hq in *.
        apply (settles_updates _ _ _ _ _ _ Hup).
      * exists (AnswerAdded (Throw "Could not fetch song metadata"%string)), q.
        intros w Hwf Hq.
        rewrite (addLinkToQueue_no_metadata env guild link requester w result Hmeta Hmd).
        rewrite <- Hq. apply (settles_same _ _ _ Hwf).
    + exists (AnswerAdded (Throw reason)), q. intros w Hwf Hq.
      rewrite (addLinkToQueue_rejected env guild link requester w reason Hmeta).
      rewrite <- Hq. apply (settles_same _ _ _ Hwf).
  - exists (AnswerItem (head q)), q. intros w Hwf Hq.
    rewrite (getCurrentQueueItem_head guild w Hwf), Hq.
    rewrite <- Hq at 2. apply (settles_same _ _ _ Hwf).
  - destruct q as [|x q'].
    + exists (AnswerItem None), []. intros w Hwf Hq.
      rewrite (getNextQueueItem_empty guild w Hwf Hq).
      rewrite <- Hq. apply (settles_same _ _ _ Hwf).
    + exists (AnswerItem (head q')), q'. intros w Hwf Hq.
      destruct (getNextQueueItem_cons guild w x q' Hwf Hq) as [Hret Hup].
      destruct (getNextQueueItem guild w) as [r w']. simpl in Hret, Hup.
      rewrite Hret. apply (settles_updates _ _ _ _ _ _ Hup).
  - destruct q as [|x q'].
    + exists AnswerVoid, []. intros w Hwf Hq.
      rewrite (clearQueueExceptCurrent_empty guild w Hwf Hq).
      rewrite <- Hq. apply (settles_same _ _ _ Hwf).
    + exists AnswerVoid, [x]. intros w Hwf Hq.
      apply (settles_updates _ _ _ _ _ _
               (clearQueueExceptCurrent_cons guild w x q' Hwf Hq)).
  - destruct (le_dec (length q) 1) as [Hlen|Hlen].
    + exists AnswerVoid, q. intros w Hwf Hq.
      rewrite (shuffleQueue_short draw guild w Hwf) by (rewrite Hq; exact Hlen).
      rewrite <- Hq. apply (settles_same _ _ _ Hwf).
    + destruct q as [|x rest]; [simpl in Hlen; lia|].
      assert (Hne : rest ≠ []) by (intros ->; simpl in Hlen; lia).
      exists AnswerVoid, (x :: fisher_yates draw (length rest - 1) rest).
      intros w Hwf Hq.
      apply (settles_updates _ _ _ _ _ _
               (shuffleQueue_long draw guild w x rest Hwf Hq Hne)).
  - destruct (invalidMove (length q) fromIndex toIndex) eqn:Hv.
    + exists (AnswerBool false), q. intros w Hwf Hq.
      rewrite (moveSong_rejected guild fromIndex toIndex w Hwf)
        by (right; rewrite Hq; exact Hv).
      rewrite <- Hq. apply (settles_same _ _ _ Hwf).
    + exists (AnswerBool true), (relocate q (Z.to_nat fromIndex) (Z.to_nat toIndex)).
      intros w Hwf Hq. rewrite <- Hq in Hv.
      destruct (moveSong_accepted guild fromIndex toIndex w Hwf Hv) as [Hret Hup].
      destruct (moveSong guild fromIndex toIndex w) as [r w']. simpl in Hret, Hup.
      rewrite Hret, Hq in *. apply (settles_updates _ _ _ _ _ _ Hup).
  - destruct (decide (0 ≤ index < Z.of_nat (length q))%Z) as [Hi|Hi].
    + exists (AnswerItem (q !! Z.to_nat index)), (delete (Z.to_nat index) q).
      intros w Hwf Hq. rewrite <- Hq in Hi.
      destruct (removeSong_accepted guild index w Hwf Hi) as [Hret Hup].
      destruct (removeSong guild index w) as [r w']. simpl in Hret, Hup.
      rewrite Hret, Hq in *. apply (settles_updates _ _ _ _ _ _ Hup).
    + exists (AnswerItem None), q. intros w Hwf Hq.
      rewrite (removeSong_rejected guild index w Hwf) by (rewrite Hq; exact Hi).
      rewrite <- Hq. apply (settles_same _ _ _ Hwf).
  - exists (AnswerQueue q), q. intros w Hwf Hq.
    destruct (getQueue_contents guild w Hwf) as [Hl Hup].
    destruct (getQueue guild w) as [l w']. simpl in Hl, Hup.
    rewrite Hl, Hq in *. apply (settles_updates _ _ _ _ _ _ Hup).
Qed.

End Isolation.

(** C9. A call of any method of the handler for one guild leaves the queue
    of every other guild as it was, and what it answers and the queue it
    leaves for its own guild are the same in any two worlds that agree on
    that guild's queue, whatever the queues of the other guilds hold. *)
Theorem guilds_are_isolated {Song Member Download : Type}
    (env : Collaborators Song Member Download) (c : Call) (guild : Guild)
    (w : World Song Member) :
  wf w ->
  let id := guild_id guild in
  let out := call env c guild w in
  wf (snd out)
  ∧ (∀ id', id' ≠ id -> queueOf (snd out) id' = queueOf w id')
  ∧ (∀ w2, wf w2 -> queueOf w2 id = queueOf w id ->
       fst (call env c guild w2) = fst out
       ∧ queueOf (snd (call env c guild w2)) id = queueOf (snd out) id).
Proof.
  intros Hwf id out. subst id out.
  destruct (call_determined env c guild (queueOf w (guild_id guild))) as (ans & q' & H).
  destruct (H w Hwf eq_refl) as (Hans & Hwf' & Hq' & Hother).
  split; [exact Hwf'|]. split; [exact Hother|].
  intros w2 Hwf2 Hq2. destruct (H w2 Hwf2 Hq2) as (Hans2 & _ & Hq2' & _).
  split; congruence.
Qed.

Lemma guilds_are_isolated_witness :
  wf Scenario.wABCD
  ∧ queueOf (snd (call Scenario.env CallGetNextQueueItem Scenario.T Scenario.wABCD))
      (guild_id Scenario.U)
    = queueOf Scenario.wABCD (guild_id Scenario.U).
Proof.
  assert (Hwf : wf Scenario.wABCD) by compute_done.
  split; [exact Hwf|].
  destruct (guilds_are_isolated Scenario.env CallGetNextQueueItem Scenario.T
              Scenario.wABCD Hwf) as (_ & H & _).
  apply H. discriminate.
Defined.

(** ** The dispatcher *)

(** C10. [handleMessage] returns at once, leaving the whole program as it
    was (the command registry, everything the commands reach, among which
    the queues, and the replies sent), when the content of the message does
    not start with the command prefix configured for its guild, or when its
    author is a bot. *)
Theorem handleMessage_ignores_other_messages {App : Type}
    (config : ConfigHandler) (message : Message) (b : Bot App) :
  startsWith (content message) (COMMAND_PREFIX config (guild message)) = false
  ∨ author_bot message = true ->
  handleMessage config message b = b
  ∧ handler (handleMessage config message b) = handler b
  ∧ app (handleMessage config message b) = app b
  ∧ outputs (handleMessage config message b) = outputs b.
Proof.
  intros Hskip.
  assert (H : handleMessage config message b = b).
  { unfold handleMessage. destruct Hskip as [-> | ->]; [reflexivity|].
    rewrite orb_true_r. reflexivity. }
  rewrite H. auto.
Qed.

Lemma handleMessage_ignores_other_messages_witness :
  handleMessage Scenario.config Scenario.chat Scenario.bot = Scenario.bot
  ∧ handleMessage Scenario.config Scenario.fromBot Scenario.bot = Scenario.bot.
Proof.
  split.
  - apply (handleMessage_ignores_other_messages
             Scenario.config Scenario.chat Scenario.bot).
    left. vm_compute. reflexivity.
  - apply (handleMessage_ignores_other_messages
             Scenario.config Scenario.fromBot Scenario.bot).
    right. reflexivity.
Defined.

(** A message of a user that starts with the prefix is dispatched: here
    the shuffle command runs on the queue of the guild and replies. *)
Example handleMessage_dispatches :
  queueOf (engine (app (handleMessage Scenario.config Scenario.command Scenario.bot))) "T"
  = [Scenario.A; Scenario.D; Scenario.C; Scenario.B]
  ∧ replies (app (handleMessage Scenario.config Scenario.command Scenario.bot))
    = [(Scenario.command, "Queue has been shuffled!"%string)].
Proof. vm_compute. auto. Qed.

(** * Further properties of the queue handler *)

(** [clearQueue] always succeeds: the guild's queue is then empty, there is
    no current item, [queueUpdate] was emitted once, and the guild is bound
    to a new array while the array it had keeps its contents. *)
Theorem clearQueue_empties_the_queue {Song Member : Type}
    (guild : Guild) (w : World Song Member) :
  wf w ->
  let w' := clearQueue guild w in
  wf w'
  ∧ queueOf w' (guild_id guild) = []
  ∧ getCurrentQueueItem guild w' = None
  ∧ trace w' = trace w ++ [Emit_queueUpdate guild]
  ∧ queues w' !! guild_id guild = Some (length (heap w))
  ∧ heap w' = heap w ++ [[]].
Proof.
  intros Hwf w'. subst w'.
  destruct (clearQueue_updates guild w Hwf) as (Hwf' & Hq & _ & Htr).
  split; [exact Hwf'|]. split; [exact Hq|].
  split; [rewrite (getCurrentQueueItem_head guild _ Hwf'), Hq; reflexivity|].
  split; [exact Htr|]. split; [apply lookup_insert_eq|reflexivity].
Qed.

Lemma clearQueue_empties_the_queue_witness :
  wf Scenario.wABCD
  ∧ queueOf (clearQueue Scenario.T Scenario.wABCD) (guild_id Scenario.T) = [].
Proof.
  assert (Hwf : wf Scenario.wABCD) by compute_done.
  split; [exact Hwf|].
  exact (proj1 (proj2 (clearQueue_empties_the_queue Scenario.T Scenario.wABCD Hwf))).
Defined.

(** [getCurrentQueueItem] is the element at position 0 of the guild's
    queue, [null] exactly when the queue is empty or absent; and what
    [getNextQueueItem] returns is what [getCurrentQueueItem] returns right
    after it. *)
Theorem getNextQueueItem_returns_the_new_current {Song Member : Type}
    (guild : Guild) (w : World Song Member) :
  wf w ->
  getCurrentQueueItem guild w = queueOf w (guild_id guild) !! 0
  ∧ (getCurrentQueueItem guild w = None ↔ queueOf w (guild_id guild) = [])
  ∧ getCurrentQueueItem guild (snd (getNextQueueItem guild w))
    = fst (getNextQueueItem guild w).
Proof.
  intros Hwf. rewrite (getCurrentQueueItem_head guild w Hwf).
  split; [apply head_lookup|]. split.
  - destruct (queueOf w (guild_id guild)); simpl; split; congruence.
  - destruct (queueOf w (guild_id guild)) as [|x q] eqn:Hq.
    + rewrite (getNextQueueItem_empty guild w Hwf Hq). simpl.
      rewrite (getCurrentQueueItem_head guild w Hwf), Hq. reflexivity.
    + destruct (getNextQueueItem_cons guild w x q Hwf Hq) as (Hret & Hwf' & Hq' & _).
      rewrite (getCurrentQueueItem_head guild _ Hwf'), Hq', Hret. reflexivity.
Qed.

Lemma getNextQueueItem_returns_the_new_current_witness :
  wf Scenario.wABC
  ∧ getCurrentQueueItem Scenario.T (snd (getNextQueueItem Scenario.T Scenario.wABC))
    = fst (getNextQueueItem Scenario.T Scenario.wABC).
Proof.
  assert (Hwf : wf Scenario.wABC) by compute_done.
  split; [exact Hwf|].
  exact (proj2 (proj2 (getNextQueueItem_returns_the_new_current
                         Scenario.T Scenario.wABC Hwf))).
Defined.

(** A successful [addLinkToQueue] does not change the current item of a
    queue that has one; on an empty or absent queue the new request becomes
    the current item. *)
Theorem addLinkToQueue_keeps_the_current_item {Song Member Download : Type}
    (env : Collaborators Song Member Download) (guild : Guild) (link : string)
    (requester : User) (w : World Song Member)
    (result : MetaResult Song Download) (md : Song) :
  wf w ->
  getSongMetadata env link = Fulfilled result ->
  metadata result = Some md ->
  let w' := snd (addLinkToQueue env guild link requester w) in
  getCurrentQueueItem guild w'
  = Some (default (request md requester) (getCurrentQueueItem guild w)).
Proof.
  intros Hwf Hmeta Hmd w'. subst w'.
  destruct (addLinkToQueue_resolved env guild link requester w result md Hwf Hmeta Hmd)
    as (_ & Hwf' & Hq & _).
  rewrite (getCurrentQueueItem_head guild _ Hwf'), Hq.
  rewrite (getCurrentQueueItem_head guild w Hwf).
  destruct (queueOf w (guild_id guild)); reflexivity.
Qed.

Lemma addLinkToQueue_keeps_the_current_item_witness :
  wf Scenario.wAB
  ∧ getCurrentQueueItem Scenario.T
      (snd (addLinkToQueue Scenario.env Scenario.T "C" Scenario.X Scenario.wAB))
    = Some (default (request "C"%string Scenario.X)
              (getCurrentQueueItem Scenario.T Scenario.wAB)).
Proof.
  assert (Hwf : wf Scenario.wAB) by compute_done.
  split; [exact Hwf|].
  exact (addLinkToQueue_keeps_the_current_item
           Scenario.env Scenario.T "C" Scenario.X Scenario.wAB
           {| metadata := Some "C"%string; downloadPromise := tt |} "C"%string
           Hwf eq_refl eq_refl).
Defined.

(** [removeSong] at index 0 leaves the world [getNextQueueItem] leaves; the
    two differ in what they return: the removed element, which was the
    current item, and the new current item. *)
Theorem removeSong_at_front_is_getNextQueueItem {Song Member : Type}
    (guild : Guild) (w : World Song Member) :
  wf w ->
  snd (removeSong guild 0 w) = snd (getNextQueueItem guild w)
  ∧ fst (removeSong guild 0 w) = getCurrentQueueItem guild w.
Proof.
  intros Hwf. unfold removeSong, getNextQueueItem, getCurrentQueueItem.
  destruct (wf_cases w (guild_id guild) Hwf) as [(_ & -> & _)|(l & _ & _ & ->)];
    [split; reflexivity|].
  destruct (queueOf w (guild_id guild)) as [|x q]; [split; reflexivity|].
  change (length (x :: q) =? 0)%nat with false. cbv iota.
  destruct (Z.ltb_spec 0 0); [lia|]. rewrite orb_false_l.
  destruct (Z.geb_spec 0 (Z.of_nat (length (x :: q)))); [simpl in *; lia|].
  rewrite splice_remove by (simpl; lia). simpl. rewrite drop_0.
  split; reflexivity.
Qed.

Lemma removeSong_at_front_is_getNextQueueItem_witness :
  wf Scenario.wABC
  ∧ snd (removeSong Scenario.T 0 Scenario.wABC)
    = snd (getNextQueueItem Scenario.T Scenario.wABC).
Proof.
  assert (Hwf : wf Scenario.wABC) by compute_done.
  split; [exact Hwf|].
  exact (proj1 (removeSong_at_front_is_getNextQueueItem Scenario.T Scenario.wABC Hwf)).
Defined.

(** When no request occurs twice in the queue, the request [removeSong]
    returns is no longer in the queue, and every other request still is. *)
Theorem removeSong_forgets_the_removed {Song Member : Type}
    (guild : Guild) (index : Z) (w : World Song Member) (x : QueuedSong Song) :
  wf w ->
  NoDup (queueOf w (guild_id guild)) ->
  fst (removeSong guild index w) = Some x ->
  (x ∉ queueOf (snd (removeSong guild index w)) (guild_id guild))
  ∧ (∀ y, y ∈ queueOf w (guild_id guild) -> y ≠ x ->
          y ∈ queueOf (snd (removeSong guild index w)) (guild_id guild)).
Proof.
  intros Hwf Hnd Hret.
  destruct (decide (0 ≤ index < Z.of_nat (length (queueOf w (guild_id guild))))%Z)
    as [Hi|Hi].
  - destruct (removeSong_accepted guild index w Hwf Hi) as (Hr & _ & Hq' & _).
    rewrite Hq'. rewrite Hret in Hr. symmetry in Hr.
    pose proof (delete_Permutation _ _ _ Hr) as Hp.
    rewrite Hp in Hnd. apply NoDup_cons in Hnd as [Hnotin _].
    split; [exact Hnotin|]. intros y Hy Hne. rewrite Hp in Hy.
    apply elem_of_cons in Hy as [Hy|Hy]; [contradiction|exact Hy].
  - rewrite (removeSong_rejected guild index w Hwf Hi) in Hret. discriminate.
Qed.

Lemma removeSong_forgets_the_removed_witness :
  wf Scenario.wABC
  ∧ (Scenario.B ∉ queueOf (snd (removeSong Scenario.T 1 Scenario.wABC))
                   (guild_id Scenario.T)).
Proof.
  assert (Hwf : wf Scenario.wABC) by compute_done.
  split; [exact Hwf|].
  refine (proj1 (removeSong_forgets_the_removed Scenario.T 1 Scenario.wABC Scenario.B
                   Hwf _ _)).
  - vm_compute. repeat constructor; rewrite ?elem_of_cons, ?elem_of_nil;
      intros H; repeat destruct H as [H|H]; try discriminate H; exact H.
  - vm_compute. reflexivity.
Defined.

(** [clearQueueExceptCurrent] twice leaves the queue it leaves once; on a
    non-empty queue the second call emits [queueUpdate] again, on an empty
    or absent queue neither call does anything. *)
Theorem clearQueueExceptCurrent_twice {Song Member : Type}
    (guild : Guild) (w : World Song Member) :
  wf w ->
  let w1 := clearQueueExceptCurrent guild w in
  let w2 := clearQueueExceptCurrent guild w1 in
  queueOf w2 (guild_id guild) = queueOf w1 (guild_id guild)
  ∧ (queueOf w (guild_id guild) = [] -> w2 = w)
  ∧ (queueOf w (guild_id guild) ≠ [] ->
     trace w2 = trace w ++ [Emit_queueUpdate guild; Emit_queueUpdate guild]).
Proof.
  intros Hwf w1 w2. subst w1 w2.
  destruct (queueOf w (guild_id guild)) as [|x q] eqn:Hq.
  - rewrite (clearQueueExceptCurrent_empty guild w Hwf Hq).
    rewrite (clearQueueExceptCurrent_empty guild w Hwf Hq).
    split; [reflexivity|]. split; [reflexivity|done].
  - destruct (clearQueueExceptCurrent_cons guild w x q Hwf Hq) as (Hwf1 & Hq1 & _ & Htr1).
    destruct (clearQueueExceptCurrent_cons guild _ x [] Hwf1 Hq1) as (_ & Hq2 & _ & Htr2).
    split; [congruence|]. split; [done|]. intros _.
    rewrite Htr2, Htr1, <- app_assoc. reflexivity.
Qed.

Lemma clearQueueExceptCurrent_twice_witness :
  wf Scenario.wABC
  ∧ queueOf (clearQueueExceptCurrent Scenario.T
               (clearQueueExceptCurrent Scenario.T Scenario.wABC)) (guild_id Scenario.T)
    = queueOf (clearQueueExceptCurrent Scenario.T Scenario.wABC) (guild_id Scenario.T).
Proof.
  assert (Hwf : wf Scenario.wABC) by compute_done.
  split; [exact Hwf|].
  exact (proj1 (clearQueueExceptCurrent_twice Scenario.T Scenario.wABC Hwf)).
Defined.

(** ** Moves *)

Lemma relocate_back {Song : Type} (q : list (QueuedSong Song)) (from to : nat) :
  from < length q -> to < length q ->
  relocate (relocate q from to) to from = q.
Proof.
  intros Hf Ht.
  destruct (lookup_lt_is_Some_2 q from Hf) as [x Hx].
  unfold relocate at 1.
  rewrite (relocate_lookup q from to Hf Ht), Hx.
  rewrite (relocate_delete q from to Hf Ht).
  rewrite delete_take_drop.
  rewrite take_app_length' by (rewrite length_take; lia).
  rewrite drop_app_length' by (rewrite length_take; lia).
  apply take_drop_middle, Hx.
Qed.

Lemma relocate_positions {Song : Type} (q : list (QueuedSong Song)) (from to k : nat) :
  from < length q -> to < length q ->
  relocate q from to !! k =
    if decide (k = to) then q !! from
    else if decide (from ≤ k < to) then q !! S k
    else if decide (to < k ≤ from) then q !! (k - 1)
    else q !! k.
Proof.
  intros Hf Ht. case_decide as Hk; [subst; apply (relocate_lookup q from to Hf Ht)|].
  unfold relocate.
  destruct (lookup_lt_is_Some_2 q from Hf) as [x Hx]. rewrite Hx.
  assert (Hlen : length (take to (delete from q)) = to).
  { rewrite length_take, length_delete by eauto. lia. }
  destruct (decide (k < to)) as [Hlt|Hge].
  - rewrite lookup_app_l by lia. rewrite lookup_take_lt by lia.
    destruct (decide (k < from)).
    + rewrite list_lookup_delete_lt by lia. repeat case_decide; try lia; reflexivity.
    + rewrite list_lookup_delete_ge by lia. repeat case_decide; try lia; reflexivity.
  - rewrite lookup_app_r by lia. rewrite Hlen.
    rewrite lookup_cons_ne_0 by lia. rewrite lookup_drop.
    replace (to + pred (k - to)) with (k - 1) by lia.
    destruct (decide (k - 1 < from)).
    + rewrite list_lookup_delete_lt by lia. repeat case_decide; try lia; reflexivity.
    + rewrite list_lookup_delete_ge by lia. replace (S (k - 1)) with k by lia.
      repeat case_decide; try lia; reflexivity.
Qed.

(** After an accepted [moveSong] every position of the queue is known: the
    moved element is at [toIndex], the elements between the two indices
    have shifted by one towards [fromIndex], and all others are where they
    were.  So moving the current item away makes the second element the
    current one. *)
Theorem moveSong_shifts_the_elements_between {Song Member : Type}
    (guild : Guild) (fromIndex toIndex : Z) (w : World Song Member) (k : nat) :
  wf w ->
  let q := queueOf w (guild_id guild) in
  let len := Z.of_nat (length q) in
  (0 ≤ fromIndex < len)%Z -> (0 ≤ toIndex < len)%Z -> fromIndex ≠ toIndex ->
  let q' := queueOf (snd (moveSong guild fromIndex toIndex w)) (guild_id guild) in
  let from := Z.to_nat fromIndex in
  let to := Z.to_nat toIndex in
  q' !! k =
    (if decide (k = to) then q !! from
     else if decide (from ≤ k < to) then q !! S k
     else if decide (to < k ≤ from) then q !! (k - 1)
     else q !! k)
  ∧ (fromIndex = 0%Z ->
     getCurrentQueueItem guild (snd (moveSong guild fromIndex toIndex w)) = q !! 1).
Proof.
  intros Hwf q len Hf Ht Hne q' from to. subst q len q' from to.
  assert (Hv : invalidMove (length (queueOf w (guild_id guild))) fromIndex toIndex
               = false) by (apply invalidMove_false; auto).
  destruct (moveSong_accepted guild fromIndex toIndex w Hwf Hv) as (_ & Hwf' & Hq' & _).
  rewrite Hq'. split; [apply relocate_positions; lia|].
  intros ->. rewrite (getCurrentQueueItem_head guild _ Hwf'), Hq', head_lookup.
  rewrite relocate_positions by lia.
  repeat case_decide; try lia; reflexivity.
Qed.

Lemma moveSong_shifts_the_elements_between_witness :
  wf Scenario.wABCD
  ∧ getCurrentQueueItem Scenario.T (snd (moveSong Scenario.T 0 2 Scenario.wABCD))
    = queueOf Scenario.wABCD (guild_id Scenario.T) !! 1.
Proof.
  assert (Hwf : wf Scenario.wABCD) by compute_done.
  split; [exact Hwf|].
  refine (proj2 (moveSong_shifts_the_elements_between
                   Scenario.T 0 2 Scenario.wABCD 0 Hwf _ _ _) eq_refl).
  - vm_compute. split; [discriminate|reflexivity].
  - vm_compute. split; [discriminate|reflexivity].
  - discriminate.
Defined.

(** An accepted [moveSong] is undone by the opposite move: the second call
    is accepted too, and the queue is the one before the first. *)
Theorem moveSong_there_and_back {Song Member : Type}
    (guild : Guild) (fromIndex toIndex : Z) (w : World Song Member) :
  wf w ->
  let q := queueOf w (guild_id guild) in
  let len := Z.of_nat (length q) in
  (0 ≤ fromIndex < len)%Z -> (0 ≤ toIndex < len)%Z -> fromIndex ≠ toIndex ->
  let w1 := snd (moveSong guild fromIndex toIndex w) in
  fst (moveSong guild toIndex fromIndex w1) = true
  ∧ queueOf (snd (moveSong guild toIndex fromIndex w1)) (guild_id guild) = q.
Proof.
  intros Hwf q len Hf Ht Hne w1. subst q len w1.
  assert (Hv : invalidMove (length (queueOf w (guild_id guild))) fromIndex toIndex
               = false) by (apply invalidMove_false; auto).
  destruct (moveSong_accepted guild fromIndex toIndex w Hwf Hv) as (_ & Hwf1 & Hq1 & _).
  assert (Hlen1 : length (queueOf (snd (moveSong guild fromIndex toIndex w))
                            (guild_id guild))
                  = length (queueOf w (guild_id guild))).
  { rewrite Hq1. apply Permutation_length, relocate_Permutation. }
  assert (Hv1 : invalidMove
                  (length (queueOf (snd (moveSong guild fromIndex toIndex w))
                             (guild_id guild))) toIndex fromIndex = false).
  { apply invalidMove_false. rewrite Hlen1. auto. }
  destruct (moveSong_accepted guild toIndex fromIndex _ Hwf1 Hv1) as (Hret & _ & Hq2 & _).
  split; [exact Hret|]. rewrite Hq2, Hq1. apply relocate_back; lia.
Qed.

Lemma moveSong_there_and_back_witness :
  wf Scenario.wABCD
  ∧ queueOf (snd (moveSong Scenario.T 3 1 (snd (moveSong Scenario.T 1 3 Scenario.wABCD))))
      (guild_id Scenario.T)
    = queueOf Scenario.wABCD (guild_id Scenario.T).
Proof.
  assert (Hwf : wf Scenario.wABCD) by compute_done.
  split; [exact Hwf|].
  refine (proj2 (moveSong_there_and_back Scenario.T 1 3 Scenario.wABCD Hwf _ _ _)).
  - vm_compute. split; [discriminate|reflexivity].
  - vm_compute. split; [discriminate|reflexivity].
  - discriminate.
Defined.

(** ** References to the arrays *)

Section References.
Context {Song Member Download : Type}.
Implicit Types (w : World Song Member) (guild : Guild) (l : nat).
Implicit Types (env : Collaborators Song Member Download).

Lemma wf_call env (c : Call) guild w : wf w -> wf (snd (call env c guild w)).
Proof.
  intros Hwf.
  destruct (call_determined env c guild (queueOf w (guild_id guild))) as (ans & q' & H).
  destruct (H w Hwf eq_refl) as (_ & Hwf' & _). exact Hwf'.
Qed.

Lemma wf_getNextQueueItem guild w : wf w -> wf (snd (getNextQueueItem guild w)).
Proof.
  intros Hwf. destruct (queueOf w (guild_id guild)) as [|x q] eqn:Hq.
  - rewrite (getNextQueueItem_empty guild w Hwf Hq). exact Hwf.
  - apply (getNextQueueItem_cons guild w x q Hwf Hq).
Qed.

Lemma wf_moveSong guild (fromIndex toIndex : Z) w :
  wf w -> wf (snd (moveSong guild fromIndex toIndex w)).
Proof.
  intros Hwf.
  destruct (invalidMove (length (queueOf w (guild_id guild))) fromIndex toIndex) eqn:Hv.
  - rewrite (moveSong_rejected guild fromIndex toIndex w Hwf) by (right; exact Hv).
    exact Hwf.
  - apply (moveSong_accepted guild fromIndex toIndex w Hwf Hv).
Qed.

Lemma wf_removeSong guild (index : Z) w : wf w -> wf (snd (removeSong guild index w)).
Proof.
  intros Hwf.
  destruct (decide (0 ≤ index < Z.of_nat (length (queueOf w (guild_id guild))))%Z)
    as [Hi|Hi].
  - apply (removeSong_accepted guild index w Hwf Hi).
  - rewrite (removeSong_rejected guild index w Hwf Hi). exact Hwf.
Qed.

Lemma wf_addLinkToQueue env guild link requester w :
  wf w -> wf (snd (addLinkToQueue env guild link requester w)).
Proof.
  intros Hwf. destruct (getSongMetadata env link) as [result|reason] eqn:Hmeta.
  - destruct (metadata result) as [md|] eqn:Hmd.
    + apply (addLinkToQueue_resolved env guild link requester w result md Hwf Hmeta Hmd).
    + rewrite (addLinkToQueue_no_metadata env guild link requester w result Hmeta Hmd).
      exact Hwf.
  - rewrite (addLinkToQueue_rejected env guild link requester w reason Hmeta).
    exact Hwf.
Qed.

Lemma queues_getNextQueueItem guild w :
  queues (snd (getNextQueueItem guild w)) = queues w.
Proof.
  unfold getNextQueueItem. destruct (queues_get (guild_id guild) w) as [[l a]|];
    [|reflexivity].
  destruct (length a =? 0)%nat; reflexivity.
Qed.

Lemma queues_moveSong guild (fromIndex toIndex : Z) w :
  queues (snd (moveSong guild fromIndex toIndex w)) = queues w.
Proof.
  unfold moveSong. destruct (queues_get (guild_id guild) w) as [[l a]|];
    [|reflexivity].
  destruct (length a =? 0)%nat; [reflexivity|].
  destruct (invalidMove (length a) fromIndex toIndex); [reflexivity|].
  destruct (splice a fromIndex 1 []). reflexivity.
Qed.

Lemma queues_removeSong guild (index : Z) w :
  queues (snd (removeSong guild index w)) = queues w.
Proof.
  unfold removeSong. destruct (queues_get (guild_id guild) w) as [[l a]|];
    [|reflexivity].
  destruct (length a =? 0)%nat; [reflexivity|].
  destruct ((index <? 0)%Z || (index >=? Z.of_nat (length a))%Z); [reflexivity|].
  destruct (splice a index 1 []). reflexivity.
Qed.

Lemma queues_addLinkToQueue env guild link requester w :
  is_Some (queues w !! guild_id guild) ->
  queues (snd (addLinkToQueue env guild link requester w)) = queues w.
Proof.
  intros [l Hid]. unfold addLinkToQueue.
  destruct (getSongMetadata env link) as [result|reason]; [|reflexivity].
  destruct (metadata result) as [md|]; [|reflexivity].
  cbv zeta. repeat (rewrite Hid; cbv beta iota). unfold array_push, snd.
  destruct (heap w !! l) as [a|] eqn:Hl.
  - match goal with
    | |- queues (if ?c then _ else _) = _ => destruct c
    end; [rewrite tryStartPlayback_trace|]; reflexivity.
  - match goal with
    | |- queues (if ?c then _ else _) = _ => destruct c
    end; [rewrite tryStartPlayback_trace|]; reflexivity.
Qed.

End References.

(** The array [getQueue] returns for a guild that has an entry stays the
    guild's queue across [getNextQueueItem], [moveSong], [removeSong] and
    [addLinkToQueue], whatever their outcome: after each of them [getQueue]
    returns the same array, and it holds the queue as it then is. *)
Theorem references_stay_live_across_in_place_methods {Song Member Download : Type}
    (env : Collaborators Song Member Download) (guild : Guild)
    (w : World Song Member) (l : nat)
    (fromIndex toIndex index : Z) (link : string) (requester : User) :
  wf w ->
  queues w !! guild_id guild = Some l ->
  ∀ w',
    w' = snd (getNextQueueItem guild w)
    ∨ w' = snd (moveSong guild fromIndex toIndex w)
    ∨ w' = snd (removeSong guild index w)
    ∨ w' = snd (addLinkToQueue env guild link requester w) ->
    fst (getQueue guild w') = l
    ∧ snd (getQueue guild w') = w'
    ∧ heap w' !! l = Some (queueOf w' (guild_id guild)).
Proof.
  intros Hwf Hid w' Hw'.
  assert (H : wf w' ∧ queues w' = queues w).
  { destruct Hw' as [->|[->|[->| ->]]].
    - split; [apply (wf_getNextQueueItem guild w Hwf)|apply queues_getNextQueueItem].
    - split; [apply (wf_moveSong guild _ _ w Hwf)|apply queues_moveSong].
    - split; [apply (wf_removeSong guild _ w Hwf)|apply queues_removeSong].
    - split; [apply (wf_addLinkToQueue env guild _ _ w Hwf)|].
      apply queues_addLinkToQueue. eauto. }
  destruct H as [Hwf' Hqs]. rewrite <- Hqs in Hid.
  unfold getQueue. rewrite Hid. split; [reflexivity|]. split; [reflexivity|].
  destruct (wf_cases w' (guild_id guild) Hwf') as [(Hn & _)|(l' & Hid' & Hl & _)];
    congruence.
Qed.

Lemma references_stay_live_across_in_place_methods_witness :
  wf Scenario.wABC
  ∧ fst (getQueue Scenario.T (snd (removeSong Scenario.T 1 Scenario.wABC))) = 0.
Proof.
  assert (Hwf : wf Scenario.wABC) by compute_done.
  split; [exact Hwf|].
  refine (proj1 (references_stay_live_across_in_place_methods
                   Scenario.env Scenario.T Scenario.wABC 0 0 0 1 "A" Scenario.X
                   Hwf _ (snd (removeSong Scenario.T 1 Scenario.wABC)) _)).
  - vm_compute. reflexivity.
  - right. right. left. reflexivity.
Defined.

(** [clearQueue], [clearQueueExceptCurrent] and [shuffleQueue] write to no
    array that exists: every array holds afterwards what it held before.
    When they act, they bind the guild to a new array, so the array
    [getQueue] returned before is no longer the guild's queue. *)
Theorem references_go_stale_across_rebinding_methods {Song Member : Type}
    (draw : nat -> nat) (guild : Guild) (w : World Song Member) (l : nat) :
  l < length (heap w) ->
  ∀ w',
    w' = clearQueue guild w
    ∨ w' = clearQueueExceptCurrent guild w
    ∨ w' = shuffleQueue draw guild w ->
    heap w' !! l = heap w !! l
    ∧ (w' = w ∨ queues w' !! guild_id guild = Some (length (heap w))).
Proof.
  intros Hl w' Hw'.
  assert (Hre : ∀ a, heap (rebind (guild_id guild) a w) !! l = heap w !! l
                     ∧ queues (rebind (guild_id guild) a w) !! guild_id guild
                       = Some (length (heap w))).
  { intros a. split; [simpl; apply lookup_app_l, Hl|apply lookup_insert_eq]. }
  destruct Hw' as [->|[->| ->]].
  - destruct (Hre []) as [H1 H2]. split; [exact H1|right; exact H2].
  - unfold clearQueueExceptCurrent.
    destruct (queues_get (guild_id guild) w) as [[l0 a]|]; [|split; auto].
    destruct a as [|x a]; [split; auto|].
    destruct (Hre [x]) as [H1 H2]. split; [exact H1|right; exact H2].
  - unfold shuffleQueue.
    destruct (queues_get (guild_id guild) w) as [[l0 a]|]; [|split; auto].
    destruct (length a <=? 1)%nat; [split; auto|].
    destruct a as [|x a]; [split; auto|].
    destruct (Hre (x :: fisher_yates draw (length (drop 1 (x :: a)) - 1)
                          (drop 1 (x :: a)))) as [H1 H2].
    split; [exact H1|right; exact H2].
Qed.

Lemma references_go_stale_across_rebinding_methods_witness :
  heap (shuffleQueue Scenario.draws Scenario.T Scenario.wABCD) !! 0
  = heap Scenario.wABCD !! 0.
Proof.
  refine (proj1 (references_go_stale_across_rebinding_methods
                   Scenario.draws Scenario.T Scenario.wABCD 0 _
                   (shuffleQueue Scenario.draws Scenario.T Scenario.wABCD) _)).
  - vm_compute. lia.
  - right. right. reflexivity.
Defined.

(** ** Sequences of calls *)

Section SequencesFacts.
Context {Song Member Download : Type}.
Implicit Types (w : World Song Member) (guild : Guild).
Implicit Types (env : Collaborators Song Member Download).
Implicit Types (es : list (Effect Member)).

Lemma playbackStarts_app es es' :
  playbackStarts (es ++ es') = playbackStarts es + playbackStarts es'.
Proof. unfold playbackStarts. rewrite List.filter_app, length_app. reflexivity. Qed.

Lemma playbackStarts_playbackEffects env guild uid :
  playbackStarts (playbackEffects env guild uid) = 1.
Proof.
  unfold playbackStarts, playbackEffects.
  destruct (members_fetch env guild uid) as [m|r]; [|reflexivity].
  destruct (startPlayback env guild m); reflexivity.
Qed.

Lemma addLinkToQueue_unresolved env guild link requester w :
  resolves env link = None ->
  snd (addLinkToQueue env guild link requester w) = w.
Proof.
  unfold resolves. intros H.
  destruct (getSongMetadata env link) as [result|reason] eqn:Hmeta.
  - rewrite (addLinkToQueue_no_metadata env guild link requester w result Hmeta H).
    reflexivity.
  - rewrite (addLinkToQueue_rejected env guild link requester w reason Hmeta).
    reflexivity.
Qed.

End SequencesFacts.

(** Requests made one after the other for a guild are queued in the order
    of the calls, behind what the queue held; the requests whose link does
    not resolve leave no mark; the other guilds' queues stay; and the
    playback-start block is entered once if the queue was empty and a
    request was admitted, and not at all otherwise. *)
Theorem enqueueAll_is_first_in_first_out {Song Member Download : Type}
    (env : Collaborators Song Member Download) (guild : Guild)
    (reqs : list (string * User)) (w : World Song Member) :
  wf w ->
  let id := guild_id guild in
  let w' := enqueueAll env guild reqs w in
  wf w'
  ∧ queueOf w' id = queueOf w id ++ admitted env reqs
  ∧ (∀ id', id' ≠ id -> queueOf w' id' = queueOf w id')
  ∧ ∃ es, trace w' = trace w ++ es
          ∧ playbackStarts es
            = if decide (queueOf w id = [] ∧ admitted env reqs ≠ []) then 1 else 0.
Proof.
  intros Hwf id w'. subst id w'. revert w Hwf.
  induction reqs as [|[link requester] reqs IH]; intros w Hwf.
  - simpl. split; [exact Hwf|]. split; [symmetry; apply app_nil_r|].
    split; [reflexivity|]. exists []. split; [symmetry; apply app_nil_r|].
    rewrite decide_False by (intros [_ H]; apply H; reflexivity). reflexivity.
  - simpl enqueueAll. unfold admitted. simpl omap.
    fold (admitted env reqs).
    destruct (resolves env link) as [md|] eqn:Hres; simpl.
    + unfold resolves in Hres.
      destruct (getSongMetadata env link) as [result|reason] eqn:Hmeta; [|discriminate].
      destruct (addLinkToQueue_resolved env guild link requester w result md
                  Hwf Hmeta Hres) as (_ & Hwf1 & Hq1 & Ho1 & Htr1).
      destruct (IH _ Hwf1) as (Hwf' & Hq' & Ho' & es' & Htr' & Hps').
      split; [exact Hwf'|]. split; [rewrite Hq', Hq1, <- app_assoc; reflexivity|].
      split; [intros id' Hne; rewrite (Ho' id' Hne); apply (Ho1 id' Hne)|].
      eexists. split; [rewrite Htr', Htr1, <- app_assoc; reflexivity|].
      rewrite playbackStarts_app, Hps', Hq1.
      rewrite (decide_False (P := _ ++ [_] = [] ∧ _))
        by (intros [H _]; destruct (queueOf w (guild_id guild)); discriminate).
      destruct (queueOf w (guild_id guild)) as [|x q].
      * rewrite decide_True by (split; [reflexivity|discriminate]).
        change (playbackStarts (Emit_queueUpdate guild :: ?es))
          with (playbackStarts es).
        rewrite playbackStarts_playbackEffects. reflexivity.
      * rewrite decide_False by (intros [H _]; discriminate). reflexivity.
    + rewrite (addLinkToQueue_unresolved env guild link requester w Hres).
      apply (IH w Hwf).
Qed.

Lemma enqueueAll_is_first_in_first_out_witness :
  wf Scenario.w0
  ∧ queueOf (enqueueAll Scenario.env Scenario.T
               [("A"%string, Scenario.X); ("bad"%string, Scenario.Y);
                ("B"%string, Scenario.Y)] Scenario.w0) (guild_id Scenario.T)
    = queueOf Scenario.w0 (guild_id Scenario.T)
      ++ admitted Scenario.env
           [("A"%string, Scenario.X); ("bad"%string, Scenario.Y);
            ("B"%string, Scenario.Y)].
Proof.
  assert (Hwf : wf Scenario.w0) by compute_done.
  split; [exact Hwf|].
  exact (proj1 (proj2 (enqueueAll_is_first_in_first_out Scenario.env Scenario.T
                         [("A"%string, Scenario.X); ("bad"%string, Scenario.Y);
                          ("B"%string, Scenario.Y)] Scenario.w0 Hwf))).
Defined.

Example enqueueAll_session :
  admitted Scenario.env
    [("A"%string, Scenario.X); ("bad"%string, Scenario.Y); ("B"%string, Scenario.Y)]
  = [Scenario.A; Scenario.B].
Proof. reflexivity. Qed.

(** Whatever methods are called, for whatever guilds and with whatever
    arguments, starting from a new handler: every guild in the map is bound
    to an array that exists, and no two guilds are bound to the same
    array. *)
Theorem run_keeps_the_guilds_apart {Song Member Download : Type}
    (env : Collaborators Song Member Download) (calls : list (Call * Guild)) :
  let w := run env calls (initial (Song := Song) (Member := Member)) in
  wf w
  ∧ ∀ id l, queues w !! id = Some l ->
      is_Some (heap w !! l)
      ∧ ∀ id', queues w !! id' = Some l -> id' = id.
Proof.
  intros w.
  assert (Hwf : wf w).
  { subst w. generalize (wf_initial (Song := Song) (Member := Member)).
    generalize (initial (Song := Song) (Member := Member)).
    induction calls as [|[c guild] calls IH]; intros w0 Hwf0; [exact Hwf0|].
    simpl. apply IH. apply (wf_call env c guild w0 Hwf0). }
  split; [exact Hwf|]. intros id l Hid. split.
  - destruct (wf_allocated w id l Hwf Hid) as [a Ha]. eauto.
  - intros id' Hid'. apply (wf_inj w id' id l Hwf Hid' Hid).
Qed.

(** * Further properties of the commands *)



Section DispatcherFacts.
Context {App : Type}.
Implicit Types (b : Bot App) (h : CommandHandler App) (command : Command App).
Implicit Types (message : Message) (config : ConfigHandler).

Lemma registerCommand_commands command h :
  commands (registerCommand command h) = <[name command := command]> (commands h).
Proof. reflexivity. Qed.

Lemma foldl_insert_lookup (n : string) (als : list string) (m : gmap string string)
    (alias : string) :
  foldl (λ m a, <[a := n]> m) m als !! alias
  = if decide (alias ∈ als) then Some n else m !! alias.
Proof.
  revert m. induction als as [|a als IH]; intros m; cbn [foldl].
  - rewrite decide_False by apply not_elem_of_nil. reflexivity.
  - rewrite IH. destruct (decide (alias ∈ als)) as [Hin|Hnin].
    + rewrite decide_True by (apply elem_of_cons; auto). reflexivity.
    + destruct (decide (alias = a)) as [->|Hne].
      * rewrite decide_True by (apply elem_of_cons; auto).
        apply lookup_insert_eq.
      * rewrite decide_False by (rewrite elem_of_cons; tauto).
        apply lookup_insert_ne. congruence.
Qed.

Lemma registerCommand_aliases command h alias :
  aliases (registerCommand command h) !! alias
  = match command_aliases command with
    | Some als => if decide (alias ∈ als) then Some (name command)
                  else aliases h !! alias
    | None => aliases h !! alias
    end.
Proof.
  unfold registerCommand. simpl.
  destruct (command_aliases command) as [als|]; [|reflexivity].
  apply foldl_insert_lookup.
Qed.

Lemma registerCommand_aliasesRegistered command h :
  aliasesRegistered h -> aliasesRegistered (registerCommand command h).
Proof.
  intros Hreg alias n. rewrite registerCommand_aliases, registerCommand_commands.
  intros Hal. apply lookup_insert_is_Some.
  destruct (decide (name command = n)) as [|Hne]; [left; assumption|right].
  split; [exact Hne|].
  destruct (command_aliases command) as [als|]; [|apply (Hreg alias n Hal)].
  destruct (decide (alias ∈ als)); [congruence|apply (Hreg alias n Hal)].
Qed.

End DispatcherFacts.

(** [checkRequirements] accepts exactly when each requirement the command
    asks for is met; the message it returns is empty exactly when it
    accepts; the guild requirement is tested first, so a message outside a
    guild is refused with the guild text also when the author is in no
    voice channel. *)
Theorem checkRequirements_accepts_iff_met {App : Type}
    (message : Message) (command : Command App) :
  let r := checkRequirements message command in
  (fst r = true ↔
     ∀ reqs, requirements command = Some reqs ->
       (messageSentInGuild reqs = Some true -> is_Some (guild message))
       ∧ (userInVoiceChannel reqs = Some true ->
          is_Some (member message ≫= voice_channel)))
  ∧ (fst r = true ↔ snd r = ""%string)
  ∧ (∀ reqs, requirements command = Some reqs ->
       messageSentInGuild reqs = Some true -> guild message = None ->
       r = (false, "This command can only be used in a server!"%string)).
Proof.
  intros r. subst r. unfold checkRequirements.
  destruct (requirements command) as [reqs|].
  2:{ simpl. split; [split; [intros _ ? [=]|reflexivity]|].
      split; [tauto|]. intros ? [=]. }
  assert (Hrefuse : ∀ (o : option bool) (P : Prop) `{!Decision P},
             truthy o && negb (bool_decide P) = true ↔ o = Some true ∧ ¬ P).
  { intros [[|]|] P ?; simpl; rewrite ?negb_true_iff, ?bool_decide_eq_false;
      split; try tauto; try discriminate; intros [[=] _]. }
  destruct (truthy (messageSentInGuild reqs)
            && negb (bool_decide (is_Some (guild message)))) eqn:HG.
  - apply Hrefuse in HG as [Hg Hno]. simpl. split; [|split].
    + split; [discriminate|]. intros H. destruct (H reqs eq_refl) as [H1 _].
      destruct (Hno (H1 Hg)).
    + split; discriminate.
    + reflexivity.
  - assert (HG' : ¬ (messageSentInGuild reqs = Some true ∧ ¬ is_Some (guild message))).
    { rewrite <- Hrefuse, HG. discriminate. }
    assert (Hguild : messageSentInGuild reqs = Some true -> is_Some (guild message)).
    { intros Hg. destruct (decide (is_Some (guild message))); tauto. }
    assert (H3 : ∀ reqs' (x : bool * string), Some reqs = Some reqs' ->
               messageSentInGuild reqs' = Some true -> guild message = None ->
               x = (false, "This command can only be used in a server!"%string)).
    { intros reqs' x [= <-] Hg Hn. destruct (Hguild Hg) as [g Hsome]. congruence. }
    destruct (truthy (userInVoiceChannel reqs)
              && negb (bool_decide (is_Some (member message ≫= voice_channel)))) eqn:HV.
    + apply Hrefuse in HV as [Hv Hno]. simpl. split; [|split].
      * split; [discriminate|]. intros H. destruct (H reqs eq_refl) as [_ H2].
        destruct (Hno (H2 Hv)).
      * split; discriminate.
      * intros reqs'. apply H3.
    + assert (HV' : ¬ (userInVoiceChannel reqs = Some true
                       ∧ ¬ is_Some (member message ≫= voice_channel))).
      { rewrite <- Hrefuse, HV. discriminate. }
      simpl. split; [|split].
      * split; [|reflexivity]. intros _ reqs' [= <-]. split; [exact Hguild|].
        intros Hv. destruct (decide (is_Some (member message ≫= voice_channel))); tauto.
      * split; reflexivity.
      * intros reqs'. apply H3.
Qed.

Example checkRequirements_guild_message_without_voice :
  checkRequirements Scenario.command
    {| name := "play"; command_aliases := Some ["p"%string];
       requirements := Some {| userInVoiceChannel := Some true;
                               messageSentInGuild := Some true |};
       execute := λ _ _ (a : BotApp string string), (a, None) |}
  = (false, "You must be in a voice channel to use this command!"%string).
Proof. reflexivity. Qed.

(** Whatever the message, [handleMessage] leaves the command registry as it
    is and only adds to what was sent, at most two outputs.  What the
    commands reach changes only by the [execute] of a registered command
    whose requirements the message meets, for a message of a user that
    starts with the prefix. *)
Theorem handleMessage_runs_registered_commands_only {App : Type}
    (config : ConfigHandler) (message : Message) (b : Bot App) :
  let b' := handleMessage config message b in
  handler b' = handler b
  ∧ (∃ outs, outputs b' = outputs b ++ outs ∧ length outs ≤ 2)
  ∧ (app b' = app b
     ∨ ∃ n command args,
         commands (handler b) !! n = Some command
         ∧ fst (checkRequirements message command) = true
         ∧ startsWith (content message) (COMMAND_PREFIX config (guild message)) = true
         ∧ author_bot message = false
         ∧ app b' = fst (execute command message args (app b))).
Proof.
  intros b'. subst b'. unfold handleMessage. cbv zeta.
  assert (Hsame : handler b = handler b
                  ∧ (∃ outs, outputs b = outputs b ++ outs ∧ length outs ≤ 2)
                  ∧ (app b = app b
                     ∨ ∃ n command args,
                         commands (handler b) !! n = Some command
                         ∧ fst (checkRequirements message command) = true
                         ∧ startsWith (content message)
                             (COMMAND_PREFIX config (guild message)) = true
                         ∧ author_bot message = false
                         ∧ app b = fst (execute command message args (app b)))).
  { split; [reflexivity|]. split; [|left; reflexivity].
    exists []. split; [symmetry; apply app_nil_r|simpl; lia]. }
  destruct (startsWith (content message) (COMMAND_PREFIX config (guild message)))
    eqn:Hprefix; [|exact Hsame].
  destruct (author_bot message) eqn:Hbot; [exact Hsame|]. simpl.
  destruct (toLowerCase <$> head _) as [cn|]; [|exact Hsame].
  destruct (String.eqb cn ""); [exact Hsame|].
  match goal with
  | |- context [commands (handler b) !! ?n] =>
      destruct (commands (handler b) !! n) as [command|] eqn:Hcommand
  end.
  - destruct (checkRequirements message command) as [met err] eqn:Hcheck.
    destruct met; simpl.
    + destruct (execute command message _ (app b)) as [app' thrown] eqn:Hexec.
      split; [destruct thrown; reflexivity|]. split.
      * destruct thrown; simpl.
        -- rewrite <- app_assoc. eexists. split; [reflexivity|simpl; lia].
        -- exists []. split; [symmetry; apply app_nil_r|simpl; lia].
      * right. eexists _, command, _. split; [exact Hcommand|].
        rewrite Hcheck, Hexec. destruct thrown; auto.
    + split; [reflexivity|]. split; [|left; reflexivity].
      eexists. split; [reflexivity|simpl; lia].
  - destruct (REPLY_TO_UNKNOWN_COMMANDS config (guild message)); [|exact Hsame].
    split; [reflexivity|]. split; [|left; reflexivity].
    eexists. split; [reflexivity|simpl; lia].
Qed.

(** ** Strings *)







(** ** Loading and reaching the commands *)

Section LoadingFacts.
Context {App : Type}.
Implicit Types (h : CommandHandler App) (command : Command App).
Implicit Types (fs : list (string * Command App)).

Lemma registerAll_spec fs h :
  let h' := foldl (λ h file, registerCommand (snd file) h) h fs in
  (aliasesRegistered h -> aliasesRegistered h')
  ∧ (∀ n, is_Some (commands h' !! n) ↔
          is_Some (commands h !! n)
          ∨ ∃ file command, (file, command) ∈ fs ∧ name command = n)
  ∧ (∀ n command, commands h' !! n = Some command ->
       name command = n ∨ commands h !! n = Some command).
Proof.
  revert h. induction fs as [|[file c] fs IH]; intros h; cbn [foldl snd].
  - split; [auto|]. split; [|auto]. intros n. split; [auto|].
    intros [H|(f & c & Hin & _)]; [exact H|]. apply elem_of_nil in Hin. destruct Hin.
  - destruct (IH (registerCommand c h)) as (Hal & Hdom & Hkey).
    split; [|split].
    + intros H. apply Hal, registerCommand_aliasesRegistered, H.
    + intros n. rewrite Hdom, registerCommand_commands, lookup_insert_is_Some.
      split.
      * intros [[Hn|[_ H]]|(f & c' & Hin & Hn)].
        -- right. exists file, c. split; [apply elem_of_cons; auto|exact Hn].
        -- left. exact H.
        -- right. exists f, c'. split; [apply elem_of_cons; auto|exact Hn].
      * intros [H|(f & c' & Hin & Hn)].
        -- left. destruct (decide (name c = n)); auto.
        -- apply elem_of_cons in Hin as [[= -> ->]|Hin].
           ++ left. left. exact Hn.
           ++ right. exists f, c'. auto.
    + intros n command H. destruct (Hkey n command H) as [Hn|Hc]; [auto|].
      rewrite registerCommand_commands in Hc.
      destruct (decide (name c = n)) as [<-|Hne].
      * rewrite lookup_insert_eq in Hc. injection Hc as <-. auto.
      * rewrite lookup_insert_ne in Hc by exact Hne. auto.
Qed.

End LoadingFacts.

(** [loadCommands] registers the modules of the files whose name ends in
    [.ts] and no others: afterwards a name is registered exactly when it
    was before or is the name of such a module, every command added is
    stored under its own name, and, if it was so before, every alias leads
    to a registered command. *)
Theorem loadCommands_registers_the_ts_modules {App : Type}
    (commandFiles : list (string * Command App)) (h : CommandHandler App) :
  let h' := fst (loadCommands commandFiles h) in
  (aliasesRegistered h -> aliasesRegistered h')
  ∧ (∀ n, is_Some (commands h' !! n) ↔
          is_Some (commands h !! n)
          ∨ ∃ file command, (file, command) ∈ commandFiles
                            ∧ endsWith file ".ts" = true ∧ name command = n)
  ∧ (∀ n command, commands h' !! n = Some command ->
       name command = n ∨ commands h !! n = Some command)
  ∧ snd (loadCommands commandFiles h) = (size (commands h'), size (aliases h')).
Proof.
  intros h'. subst h'. unfold loadCommands. cbn [fst snd].
  destruct (registerAll_spec
              (List.filter (λ file, endsWith (fst file) ".ts") commandFiles) h)
    as (Hal & Hdom & Hkey).
  split; [exact Hal|]. split; [|split; [exact Hkey|reflexivity]].
  intros n. rewrite Hdom. split.
  - intros [H|(f & c & Hin & Hn)]; [left; exact H|right].
    apply list_elem_of_In, List.filter_In in Hin as [Hin Hts].
    exists f, c. split; [apply list_elem_of_In, Hin|]. split; [exact Hts|exact Hn].
  - intros [H|(f & c & Hin & Hts & Hn)]; [left; exact H|right].
    exists f, c. split; [|exact Hn].
    apply list_elem_of_In, List.filter_In. split; [apply list_elem_of_In, Hin|exact Hts].
Qed.

Lemma loadCommands_registers_the_ts_modules_witness :
  aliasesRegistered
    (fst (loadCommands
            [("shuffle.ts"%string, shuffle_command (Song := string) (Member := string)
                                     Scenario.draws);
             ("notes.md"%string, shuffle_command Scenario.draws)]
            {| commands := ∅; aliases := ∅ |})).
Proof.
  apply (proj1 (loadCommands_registers_the_ts_modules
                  [("shuffle.ts"%string, shuffle_command (Song := string)
                                           (Member := string) Scenario.draws);
                   ("notes.md"%string, shuffle_command Scenario.draws)]
                  {| commands := ∅; aliases := ∅ |})).
  intros alias n H. simpl in H. rewrite lookup_empty in H. discriminate.
Defined.


